(** * cameraInit: creation of the missing intrinsics of a set of views

    Shallow embedding of [src/software/pipeline/main_cameraInit.cpp]
    (AliceVision): the K-matrix check [checkIntrinsicStringValidity], the
    per-view loop of [main] that creates the missing intrinsics, and the
    end-of-run report that decides the exit status.

    Conventions.
    - A C++ [double] is modelled by the rational it denotes ([Q]); a
      decimal number read from a string is rounded to the nearest binary64.
      The program only stores such values and tests their sign; NaN and
      the sign of zero are left out.
    - [IndexT] is the unsigned 32-bit type of AliceVision; a [std::size_t]
      or an [int] assigned to an [IndexT] is reduced modulo [2^32].
    - The OpenMP loop over the views is modelled by a sequential pass over
      the list of views, in the order of the list; the iterations only
      communicate through the shared state that is threaded explicitly.
      This is one of the schedules of the loop: what a statement says about
      the order of the records, about which of several views is the first
      to insert under a key, or about which call of [std::rand] serves
      which view, holds for this schedule only. *)

From Stdlib Require Import Ascii QArith Qabs.
From stdpp Require Import gmap strings list pretty sorting.

Local Open Scope Z_scope.
Local Open Scope string_scope.
Local Open Scope list_scope.

(** ** Numbers *)

Definition double := Q.
Bind Scope Q_scope with double.

(** [x > 0] on doubles. *)
Definition dpos (x : double) : bool := (0 <? Qnum x)%Z.

Definition IndexT_modulus : Z := 2 ^ 32.

(** Modelled from the spec: the reserved "unassigned" identifier
    (types.hpp is not among the sources), taken as AliceVision declares
    it: [std::numeric_limits<IndexT>::max()]. *)
Definition UndefinedIndexT : Z := IndexT_modulus - 1.

(** Conversion of a wider integer to [IndexT]. *)
Definition toIndexT (z : Z) : Z := z `mod` IndexT_modulus.

(** * The K-matrix override string *)

Module KMatrix.

(** ** Formatted extraction of a double from a stream

    [ss >> readvalue] is the C++ library's; it is modelled as the GNU
    implementation of [num_get] does it for the classic locale: leading
    white space is skipped, then the longest prefix made of an optional sign,
    digits, an optional point with more digits, and an optional exponent
    (the mark e or E, an optional sign, digits) is taken from the stream
    (an exponent mark is only taken after a mantissa digit) and handed to
    [strtod], and the extraction fails unless [strtod] consumes
    all of that prefix and the result is finite.  [strtod] returns the
    binary64 nearest to the decimal number, ties going to the even
    significand; a number too small for a binary64 gives a subnormal
    number or zero, and the extraction succeeds. *)

Definition is_digit (c : ascii) : bool :=
  let n := N_of_ascii c in ((48 <=? n) && (n <=? 57))%N.

Definition isspace (c : ascii) : bool :=
  let n := N_of_ascii c in ((n =? 32) || ((9 <=? n) && (n <=? 13)))%N.

Definition is_point (c : ascii) : bool := (N_of_ascii c =? 46)%N.

Definition is_exp_mark (c : ascii) : bool :=
  let n := N_of_ascii c in ((n =? 101) || (n =? 69))%N.

Definition digit_value (c : ascii) : Z := Z.of_N (N_of_ascii c) - 48.

Fixpoint skipws (s : string) : string :=
  match s with
  | String c s' => if isspace c then skipws s' else s
  | EmptyString => EmptyString
  end.

(** Optional sign: [true] for a minus sign. *)
Definition read_sign (s : string) : bool * string :=
  match s with
  | String c s' =>
      if (N_of_ascii c =? 45)%N then (true, s')
      else if (N_of_ascii c =? 43)%N then (false, s')
      else (false, s)
  | EmptyString => (false, s)
  end.

(** Longest prefix of decimal digits, and what follows it. *)
Fixpoint span_digits (s : string) : string * string :=
  match s with
  | String c s' =>
      if is_digit c then
        let '(d, r) := span_digits s' in (String c d, r)
      else (EmptyString, s)
  | EmptyString => (EmptyString, EmptyString)
  end.

Fixpoint digits_value_from (acc : Z) (d : string) : Z :=
  match d with
  | String c d' => digits_value_from (10 * acc + digit_value c) d'
  | EmptyString => acc
  end.

Definition digits_value (d : string) : Z := digits_value_from 0 d.

Definition is_empty (s : string) : bool :=
  match s with EmptyString => true | _ => false end.

(** Magnitudes from [2^1024 - 2^970] on round to infinity. *)
Definition DBL_OVERFLOW : Q := inject_Z (2 ^ 1024 - 2 ^ 970).

(** Value of [sign ip.fp e ex]. *)
Definition decimal_value (neg : bool) (ip fp : string) (ex : Z) : Q :=
  let mant := digits_value (ip +:+ fp) in
  let m := inject_Z (if neg then - mant else mant) in
  Qred (m * Qpower (10 # 1) (ex - Z.of_nat (String.length fp))).

(** The integer part of the binary logarithm of [n / d], for positive [n]
    and [d]. *)
Definition floor_log2 (n d : Z) : Z :=
  let k := Z.log2 n - Z.log2 d in
  if (if (0 <=? k)%Z then (d * 2 ^ k <=? n)%Z else (d <=? n * 2 ^ (- k))%Z)
  then k else k - 1.

(** The integer nearest to [n / d], the even one of two that are equally
    near, for [n] not negative and [d] positive. *)
Definition round_half_even (n d : Z) : Z :=
  let f := n / d in
  let r := 2 * (n `mod` d) in
  if (r <? d)%Z then f
  else if (d <? r)%Z then f + 1
  else if Z.even f then f else f + 1.

(** The binary64 nearest to a rational below the overflow threshold: a
    significand of at most 53 bits times a power of two that is at least
    [2^-1074]. *)
Definition binary64 (v : Q) : Q :=
  let n := Z.abs (Qnum v) in
  let d := Z.pos (Qden v) in
  if (n =? 0)%Z then 0%Q
  else
    let e := Z.max (-1074) (floor_log2 n d - 52) in
    let r :=
      if (0 <=? e)%Z
      then inject_Z (round_half_even n (d * 2 ^ e) * 2 ^ e)
      else Qred (Qmake (round_half_even (n * 2 ^ (- e)) d) (Z.to_pos (2 ^ (- e)))) in
    if (Qnum v <? 0)%Z then Qopp r else r.

Definition finite (v : Q) (rest : string) : option (double * string) :=
  if Qle_bool DBL_OVERFLOW (Qabs v) then None else Some (binary64 v, rest).

(** The fraction: a point and the digits that follow it. *)
Definition read_fraction (s : string) : string * string :=
  match s with
  | String c r => if is_point c then span_digits r else (EmptyString, s)
  | EmptyString => (EmptyString, s)
  end.

(** The exponent: [0] without an exponent mark; a mark that no digit
    follows makes the conversion fail. *)
Definition read_exponent (s : string) : option (Z * string) :=
  match s with
  | String c r =>
      if is_exp_mark c then
        let '(eneg, s5) := read_sign r in
        let '(ed, s6) := span_digits s5 in
        if is_empty ed then None
        else Some (if eneg then - digits_value ed else digits_value ed, s6)
      else Some (0, s)
  | EmptyString => Some (0, s)
  end.

Definition extract_number (s1 : string) : option (double * string) :=
  let '(neg, s2) := read_sign s1 in
  let '(ip, s3) := span_digits s2 in
  let '(fp, s4) := read_fraction s3 in
  if is_empty ip && is_empty fp then None
  else
    match read_exponent s4 with
    | Some (ex, rest) => finite (decimal_value neg ip fp ex) rest
    | None => None
    end.

(** The extraction: the value read and the rest of the stream, or [None]
    when the fail bit is set. *)
Definition extract_double (s : string) : option (double * string) :=
  extract_number (skipws s).

(** [!(ss >> readvalue)] only looks at whether the extraction failed. *)
Definition read_double (s : string) : option double :=
  fst <$> extract_double s.

(** ** [boost::split(vec_str, Kmatrix, boost::is_any_of(";"))]

    Adjacent separators are not compressed: a string with [n] separators
    has [n + 1] fields, some of them possibly empty. *)

Fixpoint is_any_of (seps : string) (c : ascii) : bool :=
  match seps with
  | String a seps' => Ascii.eqb c a || is_any_of seps' c
  | EmptyString => false
  end.

Fixpoint split (sep : ascii → bool) (s : string) : list string :=
  match s with
  | EmptyString => [EmptyString]
  | String c s' =>
      if sep c then EmptyString :: split sep s'
      else
        match split sep s' with
        | f :: fs => String c f :: fs
        | [] => [String c EmptyString]
        end
  end.

(** ** [checkIntrinsicStringValidity]

    The three output parameters are passed in and returned: they keep the
    caller's values where the function does not assign them. *)

Record KOut := { focal : double; ppx : double; ppy : double }.

Definition store (i : nat) (readvalue : double) (o : KOut) : KOut :=
  let o := if (i =? 0)%nat then {| focal := readvalue; ppx := ppx o; ppy := ppy o |} else o in
  let o := if (i =? 2)%nat then {| focal := focal o; ppx := readvalue; ppy := ppy o |} else o in
  let o := if (i =? 5)%nat then {| focal := focal o; ppx := ppx o; ppy := readvalue |} else o in
  o.

(** The loop over [vec_str], from index [i] on. *)
Fixpoint readFields (i : nat) (vec_str : list string) (o : KOut) : bool * KOut :=
  match vec_str with
  | [] => (true, o)
  | f :: rest =>
      match read_double f with
      | None => (false, o)
      | Some readvalue => readFields (S i) rest (store i readvalue o)
      end
  end.

Definition checkIntrinsicStringValidity (Kmatrix : string) (o : KOut) : bool * KOut :=
  let vec_str := split (is_any_of ";") Kmatrix in
  if negb (length vec_str =? 9)%nat then (false, o)
  else readFields 0 vec_str o.

(** The values of [defaultFocalLengthPixel], [defaultPPx] and [defaultPPy]
    when [main] calls the check without a default focal length. *)
Definition unset : KOut := {| focal := -1; ppx := -1; ppy := -1 |}.

(** ** Vocabulary of the statements *)

(** Number of separators of a string. *)
Fixpoint count_sep (sep : ascii → bool) (s : string) : nat :=
  match s with
  | String c s' => (if sep c then 1 else 0) + count_sep sep s'
  | EmptyString => 0
  end.

(** What cannot continue a number: the end of the field, or a character
    that is neither a digit, nor the point, nor an exponent mark. *)
Definition trailing (t : string) : Prop :=
  match t with
  | String c _ => is_digit c = false ∧ is_point c = false ∧ is_exp_mark c = false
  | EmptyString => True
  end.

(** A field that is a number from its first to its last character. *)
Definition numeric (f : string) (v : double) : Prop :=
  extract_double f = Some (v, EmptyString).

End KMatrix.

(** * The data of a run *)

(** Modelled from the spec: camera::EINTRINSIC (camera/cameraCommon.hpp is
    not among the sources): the closed list of model families, with the
    start marker that [main] uses for "no family requested". *)
Inductive EINTRINSIC : Type :=
  | PINHOLE_CAMERA_START
  | PINHOLE_CAMERA
  | PINHOLE_CAMERA_RADIAL1
  | PINHOLE_CAMERA_RADIAL3
  | PINHOLE_CAMERA_BROWN
  | PINHOLE_CAMERA_FISHEYE
  | PINHOLE_CAMERA_FISHEYE1.

(** Modelled from the spec: camera::IntrinsicBase (camera/IntrinsicBase.hpp
    is not among the sources): family tag, initial focal length in pixels
    (not positive when unknown), principal point and serial number.  Its
    parameter hash is a parameter of the development, see [Pass]. *)
Record Intrinsic : Type := {
  intrinsicType : EINTRINSIC;
  initialFocalLengthPix : double;
  principalPoint : double * double;
  serialNumber : string
}.

Definition setSerialNumber (sn : string) (i : Intrinsic) : Intrinsic :=
  {| intrinsicType := intrinsicType i;
     initialFocalLengthPix := initialFocalLengthPix i;
     principalPoint := principalPoint i;
     serialNumber := sn |}.

(** Modelled from the spec: sensorDB::Datasheet (sensorDB/Datasheet.hpp is
    not among the sources): make, model and physical sensor width. *)
Record Datasheet : Type := {
  _brand : string;
  _model : string;
  _sensorSize : double
}.

(** Modelled from the spec: sfm::View (sfm/View.hpp is not among the
    sources): view id, image path, image size, string metadata, assigned
    intrinsic id ([UndefinedIndexT] when unassigned) and the optional rig
    membership, a rig id with a sub-pose id. *)
Record View : Type := {
  viewId : Z;
  imagePath : string;
  width : Z;
  height : Z;
  metadata : gmap string string;
  intrinsicId : Z;
  rig : option (Z * Z)
}.

Definition hasMetadata (v : View) (name : string) : bool :=
  bool_decide (is_Some (metadata v !! name)).

Definition getMetadata (v : View) (name : string) : string :=
  default "" (metadata v !! name).

Definition isPartOfRig (v : View) : bool := bool_decide (is_Some (rig v)).
Definition getRigId (v : View) : Z := default UndefinedIndexT (fst <$> rig v).
Definition getSubPoseId (v : View) : Z := default UndefinedIndexT (snd <$> rig v).

Definition setIntrinsicId (id : Z) (v : View) : View :=
  {| viewId := viewId v; imagePath := imagePath v; width := width v;
     height := height v; metadata := metadata v; intrinsicId := id;
     rig := rig v |}.

(** ** Paths

    [fs::path(p).parent_path().string()] as Boost.Filesystem (version 3,
    POSIX) computes it from the positions of the separators: the parent
    ends where the file name starts, the separators before the file name
    are dropped unless they are the root directory, and a name that starts
    with two separators is a root name.  [fs::path(p).filename()] is taken
    for a path that does not end with a separator: what comes after the
    last one. *)

Definition is_slash (c : ascii) : bool := (N_of_ascii c =? 47)%N.

(** [is_separator(str[i])]; the character at the end of the string is
    the terminating zero. *)
Definition is_separator_at (str : string) (i : nat) : bool :=
  match String.get i str with
  | Some c => is_slash c
  | None => false
  end.

(** [str.find_last_of(separators, n - 1)]: the last separator among the
    first [n] characters. *)
Fixpoint find_last_separator (str : string) (n : nat) : option nat :=
  match n with
  | O => None
  | S n' => if is_separator_at str n' then Some n' else find_last_separator str n'
  end.

(** [str.find_first_of(separators, from)], over the [fuel] characters
    from [from] on. *)
Fixpoint find_first_separator (str : string) (from fuel : nat) : option nat :=
  match fuel with
  | O => None
  | S fuel' =>
      if is_separator_at str from then Some from
      else find_first_separator str (S from) fuel'
  end.

(** Where the last element of the path starts; [0] when the path itself
    is a file name or a root name. *)
Definition filename_pos (str : string) (end_pos : nat) : nat :=
  if (end_pos =? 2)%nat && is_separator_at str 0 && is_separator_at str 1 then 0%nat
  else if (0 <? end_pos)%nat && is_separator_at str (end_pos - 1) then (end_pos - 1)%nat
  else
    match find_last_separator str end_pos with
    | None => 0%nat
    | Some pos =>
        if (pos =? 1)%nat && is_separator_at str 0 then 0%nat else S pos
    end.

(** Where the root directory is; [None] stands for [npos]. *)
Definition root_directory_start (path : string) (size : nat) : option nat :=
  if (size =? 2)%nat && is_separator_at path 0 && is_separator_at path 1 then None
  else if (3 <? size)%nat && is_separator_at path 0 && is_separator_at path 1
          && negb (is_separator_at path 2)
  then
    match find_first_separator path 2 (String.length path - 2) with
    | Some pos => if (pos <? size)%nat then Some pos else None
    | None => None
    end
  else if (0 <? size)%nat && is_separator_at path 0 then Some 0%nat
  else None.

(** "skip separators unless root directory" *)
Fixpoint skip_separators (path : string) (root_dir_pos : option nat)
    (end_pos : nat) : nat :=
  match end_pos with
  | O => O
  | S e =>
      if negb (bool_decide (Some e = root_dir_pos)) && is_separator_at path e
      then skip_separators path root_dir_pos e
      else end_pos
  end.

Definition m_parent_path_end (path : string) : option nat :=
  let end_pos := filename_pos path (String.length path) in
  let filename_was_separator :=
    (0 <? String.length path)%nat && is_separator_at path end_pos in
  let root_dir_pos := root_directory_start path end_pos in
  let end_pos := skip_separators path root_dir_pos end_pos in
  if (end_pos =? 1)%nat && bool_decide (root_dir_pos = Some 0%nat)
     && filename_was_separator
  then None
  else Some end_pos.

Definition parent_path (p : string) : string :=
  match m_parent_path_end p with
  | None => ""
  | Some end_pos => String.substring 0 end_pos p
  end.

(** [split_last p] is [None] when [p] has no separator, and otherwise the
    parts before and after the last one. *)
Fixpoint split_last (p : string) : option (string * string) :=
  match p with
  | EmptyString => None
  | String c p' =>
      match split_last p' with
      | Some (d, f) => Some (String c d, f)
      | None => if is_slash c then Some (EmptyString, p') else None
      end
  end.

Definition filename (p : string) : string :=
  match split_last p with
  | Some (_, f) => f
  | None => p
  end.

(** [std::to_string] of an index. *)
Definition to_string (z : Z) : string := pretty z.

(** Whether a character occurs in a string. *)
Fixpoint occurs (c : ascii) (s : string) : bool :=
  match s with
  | String a s' => Ascii.eqb a c || occurs c s'
  | EmptyString => false
  end.

(** The serial number of the intrinsic of a rig camera without metadata. *)
Definition rigSerialNumber (rigId subPoseId : Z) : string :=
  "no_metadata_rig_" +:+ to_string rigId +:+ "_" +:+ to_string subPoseId.

(** The largest [int]: [std::rand] returns an [int] between [0] and
    [RAND_MAX], which is at most this. *)
Definition INT_MAX : Z := 2 ^ 31 - 1.

(** [std::map::emplace]: a key that is already bound keeps its value. *)
Definition emplace `{Countable K} {V} (k : K) (v : V) (m : gmap K V) : gmap K V :=
  match m !! k with
  | Some _ => m
  | None => <[k := v]> m
  end.

(** ** Command line and shared state *)

Record Config : Type := {
  defaultFocalLengthPixel : double;
  defaultFieldOfView : double;
  defaultCameraModel : EINTRINSIC;
  defaultPPx : double;
  defaultPPy : double;
  groupCameraModel : Z;
  allowIncompleteOutput : bool;
  allowSingleView : bool;
  sensorDatabase : list Datasheet
}.

(** What the iterations of the loop share: the intrinsics of [sfmData],
    the two anomaly records, the counter of complete views, and the number
    of calls made to [std::rand]. *)
Record State : Type := {
  intrinsics : gmap Z Intrinsic;
  noMetadataImagePaths : list string;
  unknownSensors : gmap (string * string) string;
  completeViewCount : nat;
  randCalls : nat
}.

Definition incrCompleteViewCount (st : State) : State :=
  {| intrinsics := intrinsics st;
     noMetadataImagePaths := noMetadataImagePaths st;
     unknownSensors := unknownSensors st;
     completeViewCount := S (completeViewCount st);
     randCalls := randCalls st |}.

Definition recordUnknownSensor (v : View) (st : State) : State :=
  {| intrinsics := intrinsics st;
     noMetadataImagePaths := noMetadataImagePaths st;
     unknownSensors :=
       emplace (getMetadata v "Make", getMetadata v "Model") (imagePath v)
               (unknownSensors st);
     completeViewCount := completeViewCount st;
     randCalls := randCalls st |}.

Definition recordNoMetadata (v : View) (st : State) : State :=
  {| intrinsics := intrinsics st;
     noMetadataImagePaths := noMetadataImagePaths st ++ [imagePath v];
     unknownSensors := unknownSensors st;
     completeViewCount := completeViewCount st;
     randCalls := randCalls st |}.

Definition publishIntrinsic (id : Z) (i : Intrinsic) (st : State) : State :=
  {| intrinsics := emplace id i (intrinsics st);
     noMetadataImagePaths := noMetadataImagePaths st;
     unknownSensors := unknownSensors st;
     completeViewCount := completeViewCount st;
     randCalls := randCalls st |}.

Definition tickRand (st : State) : State :=
  {| intrinsics := intrinsics st;
     noMetadataImagePaths := noMetadataImagePaths st;
     unknownSensors := unknownSensors st;
     completeViewCount := completeViewCount st;
     randCalls := S (randCalls st) |}.

(** The state after [n] more views were counted as complete. *)
Definition addComplete (n : nat) (st : State) : State :=
  {| intrinsics := intrinsics st;
     noMetadataImagePaths := noMetadataImagePaths st;
     unknownSensors := unknownSensors st;
     completeViewCount := n + completeViewCount st;
     randCalls := randCalls st |}.

(** The state after more image paths were recorded as lacking metadata. *)
Definition addNoMetadata (paths : list string) (st : State) : State :=
  {| intrinsics := intrinsics st;
     noMetadataImagePaths := noMetadataImagePaths st ++ paths;
     unknownSensors := unknownSensors st;
     completeViewCount := completeViewCount st;
     randCalls := randCalls st |}.

Definition initialState (known : gmap Z Intrinsic) : State :=
  {| intrinsics := known;
     noMetadataImagePaths := [];
     unknownSensors := ∅;
     completeViewCount := 0;
     randCalls := 0 |}.

Inductive ExitCode : Type := EXIT_SUCCESS | EXIT_FAILURE.

(** The messages of the end-of-run report, one constructor per log line. *)
Inductive LogEntry : Type :=
  | WARNING_NO_METADATA
  | WARNING_IMAGE (imagePath : string)
  | ERROR_UNKNOWN_SENSORS
  | ERROR_SENSOR (imageName brand model : string)
  | ERROR_ADD_TO_DATABASE
  | ERROR_NOT_ENOUGH_VIEWS (atLeastOne : bool)
  | ERROR_NO_VIEWS
  | INFO_REPORT (nbViews nbComplete nbIntrinsics : nat).

(** * The pass over the views *)

Section Pass.

(** The collaborators of [main] that are declared outside of it. *)

(** [sensorDB::getInfo]: the datasheet of a make and model, if any. *)
Variable getInfo : string → string → list Datasheet → option Datasheet.

(** [sfm::getViewIntrinsic], declared in sfm/viewIO.hpp. *)
Variable getViewIntrinsic :
  View → double → double → double → EINTRINSIC → double → double → Intrinsic.

(** [IntrinsicBase::hashValue], a [std::size_t]. *)
Variable hashValue : Intrinsic → Z.

(** The successive results of [std::rand] after the seeding. *)
Variable rand : nat → Z.

(** [Save], applied to the views and intrinsics of [sfmData]. *)
Variable Save : list View → gmap Z Intrinsic → bool.

Variable cfg : Config.

Definition hasCameraMetadata (v : View) : bool :=
  hasMetadata v "Make" && hasMetadata v "Model".

Definition sensorKnown (v : View) : bool :=
  bool_decide (is_Some (getInfo (getMetadata v "Make") (getMetadata v "Model")
                                (sensorDatabase cfg))).

(** The intrinsic a view already refers to, when it has an id and
    [GetIntrinsicSharedPtr] does not return a null pointer. *)
Definition existingIntrinsic (st : State) (v : View) : option Intrinsic :=
  if bool_decide (intrinsicId v ≠ UndefinedIndexT)
  then intrinsics st !! intrinsicId v
  else None.

(** "override serial number if necessary" *)
Definition overrideSerialNumber (v : View) (i : Intrinsic) : Intrinsic :=
  if hasCameraMetadata v then i
  else
    let i1 :=
      if bool_decide (groupCameraModel cfg = 2)
      then setSerialNumber (parent_path (imagePath v)) i
      else i in
    if isPartOfRig v
    then setSerialNumber (rigSerialNumber (getRigId v) (getSubPoseId v)) i1
    else i1.

(** The intrinsic built for a view, with its serial number overridden. *)
Definition builtIntrinsic (v : View) (sensorWidth : double) : Intrinsic :=
  overrideSerialNumber v
    (getViewIntrinsic v sensorWidth (defaultFocalLengthPixel cfg)
       (defaultFieldOfView cfg) (defaultCameraModel cfg)
       (defaultPPx cfg) (defaultPPy cfg)).

(** From "build intrinsic" to the end of the loop body. *)
Definition buildAndPublish (st : State) (v : View) (sensorWidth : double)
  : State * View :=
  let intrinsic := builtIntrinsic v sensorWidth in
  let st :=
    if dpos (initialFocalLengthPix intrinsic)
    then incrCompleteViewCount st else st in
  let id :=
    if bool_decide (intrinsicId v = UndefinedIndexT)
    then toIndexT (hashValue intrinsic)
    else intrinsicId v in
  let '(id, st) :=
    if bool_decide (groupCameraModel cfg = 0)
    then (toIndexT (rand (randCalls st)), tickRand st)
    else (id, st) in
  (publishIntrinsic id intrinsic st, setIntrinsicId id v).

(** One iteration of the loop "create missing intrinsics". *)
Definition processView (st : State) (v : View) : State * View :=
  match existingIntrinsic st v with
  | Some intrinsic =>
      if dpos (initialFocalLengthPix intrinsic)
      then (incrCompleteViewCount st, v)
      else if hasCameraMetadata v && negb (sensorKnown v)
      then (recordUnknownSensor v st, v)
      else (st, v)
  | None =>
      if hasCameraMetadata v then
        match getInfo (getMetadata v "Make") (getMetadata v "Model")
                      (sensorDatabase cfg) with
        | Some datasheet => buildAndPublish st v (_sensorSize datasheet)
        | None =>
            let st := recordUnknownSensor v st in
            if negb (allowIncompleteOutput cfg) then (st, v)
            else buildAndPublish st v (-1)%Q
        end
      else
        let st := recordNoMetadata v st in
        if allowIncompleteOutput cfg
        then (st, setIntrinsicId UndefinedIndexT v)
        else buildAndPublish st v (-1)%Q
  end.

(** The whole loop.  The source runs its iterations in parallel
    ([#pragma omp parallel for]), each update of the shared records being
    atomic or in a critical section; this is the schedule that runs the
    iterations one after the other, in the order of the list. *)
Fixpoint createMissingIntrinsics (st : State) (views : list View)
  : State * list View :=
  match views with
  | [] => (st, [])
  | v :: rest =>
      let '(st1, v') := processView st v in
      let '(st2, rest') := createMissingIntrinsics st1 rest in
      (st2, v' :: rest')
  end.

(** ** End of run *)

Definition noMetadataLog (st : State) : list LogEntry :=
  match noMetadataImagePaths st with
  | [] => []
  | paths => WARNING_NO_METADATA :: (WARNING_IMAGE <$> paths)
  end.

(** The entries come in the order of [map_to_list], which need not be the
    order in which [std::map] is traversed. *)
Definition unknownSensorsLog (st : State) : list LogEntry :=
  if bool_decide (unknownSensors st = ∅) then []
  else
    ERROR_UNKNOWN_SENSORS
    :: ((λ e : string * string * string,
           ERROR_SENSOR (filename e.2) e.1.1 e.1.2)
          <$> map_to_list (unknownSensors st))
    ++ [ERROR_ADD_TO_DATABASE].

Definition notEnoughViews (st : State) : bool :=
  negb (allowIncompleteOutput cfg)
  && ((completeViewCount st <? 1)%nat
      || ((completeViewCount st <? 2)%nat && negb (allowSingleView cfg))).

(** What a run leaves behind: exit status, views and intrinsics of
    [sfmData], the two anomaly records, the counter, and the log. *)
Record Outcome : Type := {
  exitCode : ExitCode;
  outViews : list View;
  outState : State;
  outLog : list LogEntry
}.

(** [main], from the test "Can't find views in input" to its end, on the
    views and intrinsics loaded into [sfmData]. *)
Definition cameraInit (views : list View) (known : gmap Z Intrinsic) : Outcome :=
  if bool_decide (views = []) then
    {| exitCode := EXIT_FAILURE; outViews := views;
       outState := initialState known; outLog := [ERROR_NO_VIEWS] |}
  else
    let '(st, views') := createMissingIntrinsics (initialState known) views in
    let log := noMetadataLog st ++ unknownSensorsLog st in
    if negb (bool_decide (unknownSensors st = ∅)) && negb (allowIncompleteOutput cfg)
    then {| exitCode := EXIT_FAILURE; outViews := views'; outState := st;
            outLog := log |}
    else if notEnoughViews st
    then {| exitCode := EXIT_FAILURE; outViews := views'; outState := st;
            outLog := log ++ [ERROR_NOT_ENOUGH_VIEWS (allowSingleView cfg)] |}
    else if negb (Save views' (intrinsics st))
    then {| exitCode := EXIT_FAILURE; outViews := views'; outState := st;
            outLog := log |}
    else {| exitCode := EXIT_SUCCESS; outViews := views'; outState := st;
            outLog := log ++ [INFO_REPORT (length views') (completeViewCount st)
                                          (size (intrinsics st))] |}.

(** ** Vocabulary of the statements *)

(** The sensor width with which the intrinsic of a view is built. *)
Definition sensorWidthOf (v : View) : double :=
  if hasCameraMetadata v then
    match getInfo (getMetadata v "Make") (getMetadata v "Model")
                  (sensorDatabase cfg) with
    | Some datasheet => _sensorSize datasheet
    | None => (-1)%Q
    end
  else (-1)%Q.

(** The intrinsic built for a view that reaches "build intrinsic". *)
Definition candidate (v : View) : Intrinsic := builtIntrinsic v (sensorWidthOf v).

(** A view without a usable intrinsic is not skipped before "build
    intrinsic". *)
Definition reachesBuild (v : View) : bool :=
  if hasCameraMetadata v then sensorKnown v || allowIncompleteOutput cfg
  else negb (allowIncompleteOutput cfg).

(** The view already refers to an intrinsic with a positive focal length. *)
Definition alreadyComplete (st : State) (v : View) : Prop :=
  ∃ i, existingIntrinsic st v = Some i ∧ dpos (initialFocalLengthPix i) = true.

(** The key of a view in the record of unknown sensors. *)
Definition sensorKey (v : View) : string * string :=
  (getMetadata v "Make", getMetadata v "Model").

(** Where the entries of the record come from. *)
Definition recordedFrom (views : list View) (m0 m : gmap (string * string) string) : Prop :=
  ∀ k p, m !! k = Some p →
         m0 !! k = Some p ∨ ∃ w, w ∈ views ∧ sensorKey w = k ∧ imagePath w = p.

(** The id that "create intrinsic id" computes for a view whose intrinsic
    is [i], when [std::rand] has been called [randCalls st] times. *)
Definition groupId (st : State) (v : View) (i : Intrinsic) : Z :=
  if bool_decide (groupCameraModel cfg = 0) then toIndexT (rand (randCalls st))
  else if bool_decide (intrinsicId v = UndefinedIndexT) then toIndexT (hashValue i)
  else intrinsicId v.

End Pass.

(** * An instance of the collaborators

    Concrete collaborators, used to run the pass on concrete datasets. *)

Module Reference.

Definition tolower (c : ascii) : ascii :=
  let n := N_of_ascii c in
  if ((65 <=? n) && (n <=? 90))%N then ascii_of_N (n + 32) else c.

Fixpoint lowercase (s : string) : string :=
  match s with
  | String c s' => String (tolower c) (lowercase s')
  | EmptyString => EmptyString
  end.

(** Modelled from the spec: sensorDB::getInfo (sensorDB/parseDatabase.hpp
    is not among the sources): the first datasheet of the table whose make
    and model match the given ones, letter case apart. *)
Fixpoint getInfo (brand model : string) (db : list Datasheet) : option Datasheet :=
  match db with
  | [] => None
  | d :: db' =>
      if String.eqb (lowercase brand) (lowercase (_brand d))
         && String.eqb (lowercase model) (lowercase (_model d))
      then Some d
      else getInfo brand model db'
  end.

(** Modelled from the spec: sfm::getViewIntrinsic (sfm/viewIO.cpp is not
    among the sources).  An explicit focal length in pixels is used as it
    is; else, with a known sensor width, the focal length comes from the
    default field of view, [0.5 * width / tan (0.5 * fov)], or from the
    focal length in millimetres of the metadata,
    [f_mm * width / sensorWidth]; else it is unknown ([-1]).  The family is
    the requested one, pinhole by default, and the principal point is the
    image centre unless both offsets are given.  The tangent of half a
    field of view (in degrees) is a parameter. *)
Definition getViewIntrinsic (tanHalfFov : double → double)
    (view : View)
    (sensorWidth defaultFocalLengthPx defaultFieldOfView : double)
    (defaultIntrinsicType : EINTRINSIC) (defaultPPx defaultPPy : double)
  : Intrinsic :=
  let w := inject_Z (width view) in
  let h := inject_Z (height view) in
  let focalPx :=
    if dpos defaultFocalLengthPx then defaultFocalLengthPx
    else if dpos sensorWidth then
      if dpos defaultFieldOfView
      then Qred ((1 # 2) * w / tanHalfFov defaultFieldOfView)
      else
        match metadata view !! "FocalLength" ≫= KMatrix.read_double with
        | Some mmFocalLength => Qred (mmFocalLength * w / sensorWidth)
        | None => (-1)%Q
        end
    else (-1)%Q in
  {| intrinsicType :=
       match defaultIntrinsicType with
       | PINHOLE_CAMERA_START => PINHOLE_CAMERA
       | t => t
       end;
     initialFocalLengthPix := focalPx;
     principalPoint :=
       if dpos defaultPPx && dpos defaultPPy then (defaultPPx, defaultPPy)
       else (Qred (w / 2), Qred (h / 2));
     serialNumber := "" |}.

(** A rational stand-in for the tangent, for the runs below; none of them
    sets a default field of view. *)
Definition tanHalfFov (fov : double) : double := Qred (fov / 90).

Definition size_t_modulus : Z := 2 ^ 64.

Definition hash_combine (seed h : Z) : Z :=
  Z.lxor seed ((h + 2654435769 + Z.shiftl seed 6 + Z.shiftr seed 2)
               `mod` size_t_modulus)
  `mod` size_t_modulus.

Fixpoint hash_string_from (acc : Z) (s : string) : Z :=
  match s with
  | String c s' =>
      hash_string_from ((31 * acc + Z.of_N (N_of_ascii c)) `mod` size_t_modulus) s'
  | EmptyString => acc
  end.

Definition hash_double (x : double) : Z :=
  let r := Qred x in
  (Qnum r + IndexT_modulus * (Z.pos (Qden r) - 1)) `mod` size_t_modulus.

Definition hash_family (t : EINTRINSIC) : Z :=
  match t with
  | PINHOLE_CAMERA_START => 0
  | PINHOLE_CAMERA => 1
  | PINHOLE_CAMERA_RADIAL1 => 2
  | PINHOLE_CAMERA_RADIAL3 => 3
  | PINHOLE_CAMERA_BROWN => 4
  | PINHOLE_CAMERA_FISHEYE => 5
  | PINHOLE_CAMERA_FISHEYE1 => 6
  end.

(** Modelled from the spec: IntrinsicBase::hashValue (camera/IntrinsicBase.hpp
    is not among the sources).  The spec only asks for a deterministic
    function of the parameters of the intrinsic; this one, a 64-bit
    combination of the family, the serial number, the focal length and the
    principal point, stands for it in the runs below.  The hashes it gives
    are its own, not those of the program. *)
Definition hashValue (i : Intrinsic) : Z :=
  let seed := hash_combine 0 (hash_family (intrinsicType i)) in
  let seed := hash_combine seed (hash_string_from 0 (serialNumber i)) in
  let seed := hash_combine seed (hash_double (initialFocalLengthPix i)) in
  let seed := hash_combine seed (hash_double (principalPoint i).1) in
  hash_combine seed (hash_double (principalPoint i).2).

(** A linear congruential [std::rand] with 31-bit results. *)
Fixpoint rand_state (n : nat) : Z :=
  match n with
  | O => 12345
  | S n' => (1103515245 * rand_state n' + 12345) `mod` 2 ^ 31
  end.

Definition rand (n : nat) : Z := rand_state (S n).

(** Modelled from the spec: Save (sfm/sfmDataIO.hpp is not among the
    sources), the writer of the dataset; here it always succeeds. *)
Definition Save (views : list View) (known : gmap Z Intrinsic) : bool := true.

(** ** Datasets *)

Definition database : list Datasheet :=
  [ {| _brand := "Canon"; _model := "Canon EOS 5D"; _sensorSize := 36 |};
    {| _brand := "Nikon"; _model := "D800"; _sensorSize := 359 # 10 |} ].

Definition config (mode : Z) (incomplete single : bool) : Config :=
  {| defaultFocalLengthPixel := (-1)%Q;
     defaultFieldOfView := (-1)%Q;
     defaultCameraModel := PINHOLE_CAMERA_START;
     defaultPPx := (-1)%Q;
     defaultPPy := (-1)%Q;
     groupCameraModel := mode;
     allowIncompleteOutput := incomplete;
     allowSingleView := single;
     sensorDatabase := database |}.

(** The same, with a default focal length in pixels. *)
Definition configFocal (f : double) (mode : Z) (incomplete single : bool) : Config :=
  {| defaultFocalLengthPixel := f;
     defaultFieldOfView := (-1)%Q;
     defaultCameraModel := PINHOLE_CAMERA_START;
     defaultPPx := (-1)%Q;
     defaultPPy := (-1)%Q;
     groupCameraModel := mode;
     allowIncompleteOutput := incomplete;
     allowSingleView := single;
     sensorDatabase := database |}.

Definition exif (make model focalMm : string) : gmap string string :=
  {[ "Make" := make; "Model" := model; "FocalLength" := focalMm ]}.

Definition image (id : Z) (path : string) (md : gmap string string) : View :=
  {| viewId := id; imagePath := path; width := 1920; height := 1080;
     metadata := md; intrinsicId := UndefinedIndexT; rig := None |}.

Definition rigImage (id : Z) (path : string) (rigId subPoseId : Z) : View :=
  {| viewId := id; imagePath := path; width := 1920; height := 1080;
     metadata := ∅; intrinsicId := UndefinedIndexT;
     rig := Some (rigId, subPoseId) |}.

Definition run (c : Config) (views : list View) (known : gmap Z Intrinsic) : Outcome :=
  cameraInit getInfo (getViewIntrinsic tanHalfFov) hashValue rand Save c views known.

Definition pass (c : Config) (st : State) (views : list View) : State * list View :=
  createMissingIntrinsics getInfo (getViewIntrinsic tanHalfFov) hashValue rand c st views.

Definition built (c : Config) (v : View) : Intrinsic :=
  candidate getInfo (getViewIntrinsic tanHalfFov) c v.

(** A view that comes with a group id. *)
Definition withIntrinsicId (id : Z) (v : View) : View := setIntrinsicId id v.

Definition pinhole (f : double) : Intrinsic :=
  {| intrinsicType := PINHOLE_CAMERA; initialFocalLengthPix := f;
     principalPoint := (960, 540)%Q; serialNumber := "" |}.

(** A K matrix given on the command line, in default mode. *)
Definition configKMatrix (f px py : double) : Config :=
  {| defaultFocalLengthPixel := f;
     defaultFieldOfView := (-1)%Q;
     defaultCameraModel := PINHOLE_CAMERA_START;
     defaultPPx := px;
     defaultPPy := py;
     groupCameraModel := 2;
     allowIncompleteOutput := false;
     allowSingleView := false;
     sensorDatabase := database |}.

Definition canonA : View := image 1 "/data/a.jpg" (exif "Canon" "Canon EOS 5D" "50").
Definition canonB : View := image 2 "/data/b.jpg" (exif "canon" "canon eos 5d" "50").
Definition nikonC : View := image 3 "/data/c.jpg" (exif "Nikon" "D800" "35").
Definition acmeX : View := image 4 "/data/x.jpg" (exif "Acme" "X1" "50").
Definition frames : list View :=
  [image 1 "/video/0001.jpg" ∅; image 2 "/video/0002.jpg" ∅;
   image 3 "/video/0003.jpg" ∅].

End Reference.

(** * Listing the images of a folder *)

Module ListFiles.

(** [::tolower] in the classic locale. *)
Definition tolower (c : ascii) : ascii :=
  let n := N_of_ascii c in
  if ((65 <=? n) && (n <=? 90))%N then ascii_of_N (n + 32) else c.

(** [std::transform(s.begin(), s.end(), s.begin(), ::tolower)] *)
Fixpoint transform_tolower (s : string) : string :=
  match s with
  | String c s' => String (tolower c) (transform_tolower s')
  | EmptyString => EmptyString
  end.

Definition is_dot (c : ascii) : bool := (N_of_ascii c =? 46)%N.

(** The part of a name that starts at its rightmost dot, if it has one. *)
Fixpoint from_last_dot (name : string) : option string :=
  match name with
  | EmptyString => None
  | String c name' =>
      match from_last_dot name' with
      | Some e => Some e
      | None => if is_dot c then Some name else None
      end
  end.

(** [fs::extension(p)]: empty for the names [.] and [..] and for a name
    without a dot, and otherwise the end of the file name from its
    rightmost dot on. *)
Definition extension (p : string) : string :=
  let name := filename p in
  if String.eqb name "." || String.eqb name ".." then ""
  else default "" (from_last_dot name).

(** What the file system holds at a path: a regular file, a directory
    with the entries that [fs::directory_iterator] yields, in that order,
    or neither.  The tree is finite: links that make a directory reachable
    from itself are not modelled. *)
Inductive FsEntry : Type :=
  | RegularFile (path : string)
  | Directory (path : string) (entries : list FsEntry)
  | NoFileNorDirectory (path : string).

Definition entryPath (e : FsEntry) : string :=
  match e with
  | RegularFile p | Directory p _ | NoFileNorDirectory p => p
  end.

(** The output parameter [resources], and the paths for which the error
    "is not a valid folder or file path" is logged. *)
Record Listing : Type := {
  resources : list string;
  invalidPaths : list string
}.

Definition push_back (p : string) (l : Listing) : Listing :=
  {| resources := resources l ++ [p]; invalidPaths := invalidPaths l |}.

Definition logInvalid (p : string) (l : Listing) : Listing :=
  {| resources := resources l; invalidPaths := invalidPaths l ++ [p] |}.

(** The loop over [extensions] of the regular-file branch. *)
Fixpoint hasExtension (fileExtension : string) (extensions : list string) : bool :=
  match extensions with
  | [] => false
  | e :: rest => String.eqb fileExtension e || hasExtension fileExtension rest
  end.

(** [listFiles]: a regular file whose extension is not in the list falls
    through to the error message, like a path that is neither a file nor
    a directory. *)
Fixpoint listFiles (folderOrFile : FsEntry) (extensions : list string)
    (l : Listing) : bool * Listing :=
  match folderOrFile with
  | RegularFile p =>
      if hasExtension (transform_tolower (extension p)) extensions
      then (true, push_back p l)
      else (false, logInvalid p l)
  | Directory p allFiles =>
      (fix loop (files : list FsEntry) (hasFile : bool) (l : Listing)
         : bool * Listing :=
         match files with
         | [] => (hasFile, l)
         | f :: files' =>
             let '(found, l') := listFiles f extensions l in
             loop files' (if found then true else hasFile) l'
         end) allFiles false l
  | NoFileNorDirectory p => (false, logInvalid p l)
  end.

(** The extensions that [main] asks for. *)
Definition imageExtensions : list string :=
  [".jpg"; ".jpeg"; ".tif"; ".tiff"; ".exr"].

(** ** Vocabulary of the statements *)

(** The regular files below an entry, a directory before its successors
    and in the order of the directories, that pass a test. *)
Fixpoint regularFiles (keep : string → bool) (e : FsEntry) : list string :=
  match e with
  | RegularFile p => if keep p then [p] else []
  | Directory _ entries => flat_map (regularFiles keep) entries
  | NoFileNorDirectory _ => []
  end.

(** The leaves for which an error is logged, in the order of the visit. *)
Fixpoint rejected (keep : string → bool) (e : FsEntry) : list string :=
  match e with
  | RegularFile p => if keep p then [] else [p]
  | Directory _ entries => flat_map (rejected keep) entries
  | NoFileNorDirectory p => [p]
  end.

Definition selected (extensions : list string) (p : string) : bool :=
  hasExtension (transform_tolower (extension p)) extensions.

(** The listing after the visit of an entry. *)
Definition listed (extensions : list string) (e : FsEntry) (l : Listing) : Listing :=
  {| resources := resources l ++ regularFiles (selected extensions) e;
     invalidPaths := invalidPaths l ++ rejected (selected extensions) e |}.

(** [Below x e]: the entry [x] is [e] or lies below it. *)
Inductive Below (x : FsEntry) : FsEntry → Prop :=
  | Below_here : Below x x
  | Below_entry p entries e : e ∈ entries → Below x e → Below x (Directory p entries).

Definition is_upper (c : ascii) : bool :=
  let n := N_of_ascii c in ((65 <=? n) && (n <=? 90))%N.

Fixpoint has_upper (s : string) : bool :=
  match s with
  | String c s' => is_upper c || has_upper s'
  | EmptyString => false
  end.

End ListFiles.

(** * Vocabulary for datasets without previous group ids *)

Section FreshDatasets.

Variable getInfo : string → string → list Datasheet → option Datasheet.
Variable getViewIntrinsic :
  View → double → double → double → EINTRINSIC → double → double → Intrinsic.
Variable hashValue : Intrinsic → Z.
Variable cfg : Config.

(** What the loop makes, outside of mode 0, of a view that comes without
    a group id: the hash of its intrinsic when one is built, and nothing
    otherwise. *)
Definition assignFresh (v : View) : View :=
  if reachesBuild getInfo cfg v
  then setIntrinsicId
         (toIndexT (hashValue (candidate getInfo getViewIntrinsic cfg v))) v
  else v.

(** The view is counted as complete when it comes without a group id. *)
Definition countedComplete (v : View) : bool :=
  reachesBuild getInfo cfg v
  && dpos (initialFocalLengthPix (candidate getInfo getViewIntrinsic cfg v)).

(** The view has the make and model of a sensor that is not in the
    database. *)
Definition unknownSensorView (v : View) : bool :=
  hasCameraMetadata v && negb (sensorKnown getInfo cfg v).

(** The intrinsic that the builder returns for a view without metadata. *)
Definition builtWithoutSensor (v : View) : Intrinsic :=
  getViewIntrinsic v (-1)%Q (defaultFocalLengthPixel cfg)
    (defaultFieldOfView cfg) (defaultCameraModel cfg)
    (defaultPPx cfg) (defaultPPy cfg).

End FreshDatasets.

(** An iteration leaves the view and the intrinsics as they are. *)
Definition settled
    (getInfo : string → string → list Datasheet → option Datasheet)
    (getViewIntrinsic :
       View → double → double → double → EINTRINSIC → double → double → Intrinsic)
    (hashValue : Intrinsic → Z) (rand : nat → Z) (cfg : Config)
    (st : State) (w : View) : Prop :=
  (processView getInfo getViewIntrinsic hashValue rand cfg st w).2 = w
  ∧ intrinsics (processView getInfo getViewIntrinsic hashValue rand cfg st w).1
    = intrinsics st.

(** The view refers to an existing intrinsic with a positive initial
    focal length. *)
Definition existingPositive (st : State) (v : View) : bool :=
  match existingIntrinsic st v with
  | Some i => dpos (initialFocalLengthPix i)
  | None => false
  end.

(** What is known of a view at the end of the pass: its group id has an
    intrinsic, or it was left unassigned because incomplete output is
    allowed, or its sensor was recorded as unknown. *)
Definition viewStatus (cfg : Config) (st : State) (v' : View) : Prop :=
  is_Some (intrinsics st !! intrinsicId v')
  ∨ (allowIncompleteOutput cfg = true ∧ intrinsicId v' = UndefinedIndexT)
  ∨ (allowIncompleteOutput cfg = false ∧ unknownSensors st ≠ ∅).

(** * [main]: from the command line to the pass *)

Module CommandLine.

(** The variables that [boost::program_options] fills. *)
Record Options : Type := {
  sfmFilePath : string;
  imageFolder : string;
  sensorDatabasePath : string;
  outputFilePath : string;
  defaultIntrinsicKMatrix : string;
  defaultCameraModelName : string;
  defaultFocalLengthPixel : double;
  defaultFieldOfView : double;
  groupCameraModel : Z;
  allowIncompleteOutput : bool;
  allowSingleView : bool
}.

(** The error messages of the checks that come before the pass. *)
Inductive Abort : Type :=
  | NEED_INPUT_OPTION
  | CANNOT_COMBINE_INPUT_OPTIONS
  | NO_INPUT_FOLDER
  | NO_INPUT_SFM_FILE
  | INVALID_OUTPUT
  | CANNOT_CREATE_OUTPUT_FOLDER
  | CANNOT_COMBINE_INTRINSIC_AND_FOCAL
  | CANNOT_COMBINE_INTRINSIC_AND_FIELD_OF_VIEW
  | CANNOT_COMBINE_FOCAL_AND_FIELD_OF_VIEW
  | INVALID_K_MATRIX
  | INVALID_DATABASE
  | NO_IMAGE_IN_FOLDER.

End CommandLine.

(** The order of the keys of the views in [std::map]. *)
Definition byViewId (a b : Z * View) : Prop := (a.1 ≤ b.1)%Z.

Global Instance byViewId_dec a b : Decision (byViewId a b) :=
  decide (a.1 ≤ b.1)%Z.

Section Main.

Import CommandLine.

(** The file system, as [main] questions it. *)
Variable fs_exists : string → bool.
Variable fs_is_directory : string → bool.
Variable fs_is_regular_file : string → bool.
(** [fs::create_directory]: whether the directory was created. *)
Variable fs_create_directory : string → bool.
(** What the file system holds at a path and below it. *)
Variable fs_entry : string → ListFiles.FsEntry.

(** [sensorDB::parseDatabase]: the datasheets of a file, or a failure. *)
Variable parseDatabase : string → option (list Datasheet).
(** [camera::EINTRINSIC_stringToEnum] *)
Variable EINTRINSIC_stringToEnum : string → EINTRINSIC.
(** [sfm::loadJSON]: the views, by view id, and the intrinsics of a file;
    [main] does not look at its status. *)
Variable loadJSON : string → gmap Z View * gmap Z Intrinsic.
(** [sfm::updateIncompleteView], declared in sfm/viewIO.hpp. *)
Variable updateIncompleteView : View → View.

Variable getInfo : string → string → list Datasheet → option Datasheet.
Variable getViewIntrinsic :
  View → double → double → double → EINTRINSIC → double → double → Intrinsic.
Variable hashValue : Intrinsic → Z.
Variable rand : nat → Z.
Variable Save : list View → gmap Z Intrinsic → bool.

Definition nonempty (s : string) : bool := negb (KMatrix.is_empty s).

(** The checks of [main] from "set user camera model" to "check sensor
    database", and the parameters of the pass they lead to: the K matrix,
    when there is one, gives the default focal length and principal
    point. *)
Definition configure (o : Options) : Abort + Config :=
  let defaultCameraModel :=
    if nonempty (defaultCameraModelName o)
    then EINTRINSIC_stringToEnum (defaultCameraModelName o)
    else PINHOLE_CAMERA_START in
  if negb (nonempty (imageFolder o)) && negb (nonempty (sfmFilePath o))
  then inl NEED_INPUT_OPTION
  else if nonempty (imageFolder o) && nonempty (sfmFilePath o)
  then inl CANNOT_COMBINE_INPUT_OPTIONS
  else if nonempty (imageFolder o) && negb (fs_exists (imageFolder o))
          && negb (fs_is_directory (imageFolder o))
  then inl NO_INPUT_FOLDER
  else if nonempty (sfmFilePath o) && negb (fs_exists (sfmFilePath o))
          && negb (fs_is_regular_file (sfmFilePath o))
  then inl NO_INPUT_SFM_FILE
  else if negb (nonempty (outputFilePath o))
  then inl INVALID_OUTPUT
  else
    let outputFolderPart := parent_path (outputFilePath o) in
    if nonempty outputFolderPart && negb (fs_exists outputFolderPart)
       && negb (fs_create_directory outputFolderPart)
    then inl CANNOT_CREATE_OUTPUT_FOLDER
    else if nonempty (defaultIntrinsicKMatrix o) && dpos (defaultFocalLengthPixel o)
    then inl CANNOT_COMBINE_INTRINSIC_AND_FOCAL
    else if nonempty (defaultIntrinsicKMatrix o) && dpos (defaultFieldOfView o)
    then inl CANNOT_COMBINE_INTRINSIC_AND_FIELD_OF_VIEW
    else if dpos (defaultFocalLengthPixel o) && dpos (defaultFieldOfView o)
    then inl CANNOT_COMBINE_FOCAL_AND_FIELD_OF_VIEW
    else
      let defaults :=
        {| KMatrix.focal := defaultFocalLengthPixel o;
           KMatrix.ppx := -1; KMatrix.ppy := -1 |} in
      let '(valid, defaults) :=
        if nonempty (defaultIntrinsicKMatrix o)
        then KMatrix.checkIntrinsicStringValidity (defaultIntrinsicKMatrix o) defaults
        else (true, defaults) in
      if negb valid then inl INVALID_K_MATRIX
      else
        match (if nonempty (sensorDatabasePath o)
               then parseDatabase (sensorDatabasePath o)
               else Some []) with
        | None => inl INVALID_DATABASE
        | Some sensorDatabase =>
            inr (Build_Config (KMatrix.focal defaults) (defaultFieldOfView o)
                   defaultCameraModel (KMatrix.ppx defaults) (KMatrix.ppy defaults)
                   (groupCameraModel o) (allowIncompleteOutput o)
                   (allowSingleView o) sensorDatabase)
        end.

(** Modelled from the spec: the default-constructed [View] (sfm/View.hpp is
    not among the sources): no ids, no path, no metadata, no rig. *)
Definition emptyView : View :=
  {| viewId := UndefinedIndexT; imagePath := ""; width := 0; height := 0;
     metadata := ∅; intrinsicId := UndefinedIndexT; rig := None |}.

Definition setImagePath (p : string) (v : View) : View :=
  {| viewId := viewId v; imagePath := p; width := width v; height := height v;
     metadata := metadata v; intrinsicId := intrinsicId v; rig := rig v |}.

(** The incomplete view of an image path, once updated. *)
Definition viewOfImage (p : string) : View :=
  updateIncompleteView (setImagePath p emptyView).

(** [views.emplace(view.getViewId(), ...)] for the views of the images, in
    the order of the listing. *)
Definition viewsOfImages (imagePaths : list string) : gmap Z View :=
  foldl (λ views p, emplace (viewId (viewOfImage p)) (viewOfImage p) views)
        ∅ imagePaths.

(** The views of [sfmData] in the order of their ids, the order in which
    [std::map] is traversed. *)
Definition getViews (views : gmap Z View) : list View :=
  (merge_sort byViewId (map_to_list views)).*2.

(** [main] after the parsing of the command line: the failure of a check,
    or the outcome of the pass and of the end of the run. *)
Definition main (o : Options) : Abort + Outcome :=
  match configure o with
  | inl a => inl a
  | inr cfg =>
      if negb (nonempty (imageFolder o)) then
        let '(views, known) := loadJSON (sfmFilePath o) in
        inr (cameraInit getInfo getViewIntrinsic hashValue rand Save cfg
               (getViews views) known)
      else
        let '(found, l) :=
          ListFiles.listFiles (fs_entry (imageFolder o)) ListFiles.imageExtensions
            {| ListFiles.resources := []; ListFiles.invalidPaths := [] |} in
        if found
        then inr (cameraInit getInfo getViewIntrinsic hashValue rand Save cfg
                    (getViews (viewsOfImages (ListFiles.resources l))) ∅)
        else inl NO_IMAGE_IN_FOLDER
  end.

(** The exit status of [main]. *)
Definition mainExitCode (o : Options) : ExitCode :=
  match main o with
  | inl _ => EXIT_FAILURE
  | inr out => exitCode out
  end.

End Main.

(** * An instance of the file system and of the loaders *)

Module ReferenceMain.

Import ListFiles.

(** A folder of images, with a file that is no image, a sub-folder and a
    path that is neither a file nor a folder. *)
Definition dataFolder : FsEntry :=
  Directory "/data"
    [ RegularFile "/data/a.JPG";
      RegularFile "/data/notes.txt";
      Directory "/data/sub"
        [ RegularFile "/data/sub/b.tiff"; NoFileNorDirectory "/data/sub/socket" ];
      RegularFile "/data/c.jpeg" ].

Definition fs_entry (p : string) : FsEntry :=
  if String.eqb p "/data" then dataFolder else NoFileNorDirectory p.

Definition fs_is_directory (p : string) : bool :=
  String.eqb p "/data" || String.eqb p "/out".

Definition fs_is_regular_file (p : string) : bool :=
  String.eqb p "/db/sensors.db".

Definition fs_exists (p : string) : bool :=
  fs_is_directory p || fs_is_regular_file p.

Definition fs_create_directory (p : string) : bool := true.

Definition parseDatabase (p : string) : option (list Datasheet) :=
  if String.eqb p "/db/sensors.db" then Some Reference.database else None.

(** Modelled from the spec: camera::EINTRINSIC_stringToEnum
    (camera/cameraCommon.hpp is not among the sources), on the names that
    the help of the option lists. *)
Definition EINTRINSIC_stringToEnum (name : string) : EINTRINSIC :=
  if String.eqb name "pinhole" then PINHOLE_CAMERA
  else if String.eqb name "radial1" then PINHOLE_CAMERA_RADIAL1
  else if String.eqb name "radial3" then PINHOLE_CAMERA_RADIAL3
  else if String.eqb name "brown" then PINHOLE_CAMERA_BROWN
  else if String.eqb name "fisheye4" then PINHOLE_CAMERA_FISHEYE
  else if String.eqb name "fisheye1" then PINHOLE_CAMERA_FISHEYE1
  else PINHOLE_CAMERA_START.

Definition loadJSON (p : string) : gmap Z View * gmap Z Intrinsic := (∅, ∅).

(** Modelled from the spec: sfm::updateIncompleteView (sfm/viewIO.cpp is
    not among the sources): the view gets an id made from its image path
    and the size of the image; the images of this instance carry no
    metadata. *)
Definition updateIncompleteView (v : View) : View :=
  {| viewId := toIndexT (Reference.hash_string_from 0 (imagePath v));
     imagePath := imagePath v; width := 1920; height := 1080;
     metadata := metadata v; intrinsicId := intrinsicId v; rig := rig v |}.

(** [--imageFolder /data -s /db/sensors.db -o /out/cameraInit.sfm] with a K
    matrix. *)
Definition options (Kmatrix : string) : CommandLine.Options :=
  {| CommandLine.sfmFilePath := "";
     CommandLine.imageFolder := "/data";
     CommandLine.sensorDatabasePath := "/db/sensors.db";
     CommandLine.outputFilePath := "/out/cameraInit.sfm";
     CommandLine.defaultIntrinsicKMatrix := Kmatrix;
     CommandLine.defaultCameraModelName := "";
     CommandLine.defaultFocalLengthPixel := -1;
     CommandLine.defaultFieldOfView := -1;
     CommandLine.groupCameraModel := 2;
     CommandLine.allowIncompleteOutput := false;
     CommandLine.allowSingleView := false |}.

Definition configure (o : CommandLine.Options) : CommandLine.Abort + Config :=
  configure fs_exists fs_is_directory fs_is_regular_file fs_create_directory
    parseDatabase EINTRINSIC_stringToEnum o.

Definition viewOfImage (p : string) : View := viewOfImage updateIncompleteView p.

Definition viewsOfImages (imagePaths : list string) : gmap Z View :=
  viewsOfImages updateIncompleteView imagePaths.

Definition main (o : CommandLine.Options) : CommandLine.Abort + Outcome :=
  main fs_exists fs_is_directory fs_is_regular_file fs_create_directory fs_entry
    parseDatabase EINTRINSIC_stringToEnum loadJSON updateIncompleteView
    Reference.getInfo (Reference.getViewIntrinsic Reference.tanHalfFov)
    Reference.hashValue Reference.rand Reference.Save o.

End ReferenceMain.

(** * Facts about the K-matrix check *)

Section KMatrixFacts.

Import KMatrix.

Lemma split_nonempty sep s : split sep s ≠ [].
Proof. destruct s as [|c s]; simpl; [done|]. destruct (sep c); [done|]. by destruct (split sep s). Qed.

(** A string with [n] separators has [n + 1] fields. *)
Lemma split_length sep s : length (split sep s) = S (count_sep sep s).
Proof.
  induction s as [|c s IH]; simpl; [done|].
  destruct (sep c); simpl; [by rewrite IH|].
  destruct (split sep s) eqn:E; simpl in *; [done|]. exact IH.
Qed.

Lemma readFields_fail i f rest o :
  read_double f = None → readFields i (f :: rest) o = (false, o).
Proof. intros H. simpl. by rewrite H. Qed.

Lemma readFields_all i fields vs o :
  Forall2 (λ f v, read_double f = Some v) fields vs →
  readFields i fields o
  = (true, foldl (λ acc iv, store iv.1 iv.2 acc) o (zip (seq i (length vs)) vs)).
Proof.
  intros H. revert i o. induction H as [|f v fields vs Hf _ IH]; intros i o; simpl; [done|].
  rewrite Hf. by rewrite IH.
Qed.

(** ** Numeric prefixes *)

Lemma skipws_app s t : skipws s ≠ "" → skipws (s +:+ t) = skipws s +:+ t.
Proof.
  induction s as [|c s IH]; simpl; [done|].
  destruct (isspace c); [exact IH|done].
Qed.

Lemma read_sign_app s t :
  s ≠ "" → read_sign (s +:+ t) = ((read_sign s).1, (read_sign s).2 +:+ t).
Proof.
  destruct s as [|c s]; [done|]. intros _. simpl.
  by repeat case_match.
Qed.

Lemma span_digits_app s t :
  trailing t →
  span_digits (s +:+ t) = ((span_digits s).1, (span_digits s).2 +:+ t).
Proof.
  intros Ht. induction s as [|c s IH]; simpl.
  - destruct t as [|c t]; simpl in *; [done|]. by destruct Ht as (-> & _).
  - destruct (is_digit c); [|done].
    rewrite IH. by destruct (span_digits s).
Qed.

Lemma read_fraction_app s t :
  trailing t →
  read_fraction (s +:+ t) = ((read_fraction s).1, (read_fraction s).2 +:+ t).
Proof.
  intros Ht. destruct s as [|c s]; simpl.
  - destruct t as [|c t]; simpl in *; [done|]. by destruct Ht as (_ & -> & _).
  - destruct (is_point c); [|done]. by apply span_digits_app.
Qed.

Lemma read_exponent_app s t ex rest :
  trailing t → read_exponent s = Some (ex, rest) →
  read_exponent (s +:+ t) = Some (ex, rest +:+ t).
Proof.
  intros Ht. destruct s as [|c s]; simpl.
  - intros [= <- <-]. destruct t as [|c t]; simpl in *; [done|].
    by destruct Ht as (_ & _ & ->).
  - destruct (is_exp_mark c); [|by intros [= <- <-]].
    destruct s as [|c' s]; [done|].
    rewrite read_sign_app by done.
    destruct (read_sign (String c' s)) as [eneg s5]. simpl.
    rewrite span_digits_app by done.
    destruct (span_digits s5) as [ed s6]. simpl.
    destruct (is_empty ed); [done|]. by intros [= <- <-].
Qed.

Lemma extract_number_app s t v rest :
  trailing t → extract_number s = Some (v, rest) →
  extract_number (s +:+ t) = Some (v, rest +:+ t).
Proof.
  intros Ht. unfold extract_number.
  destruct s as [|c s]; [done|].
  rewrite read_sign_app by done.
  destruct (read_sign (String c s)) as [neg s2]. simpl.
  rewrite span_digits_app by done.
  destruct (span_digits s2) as [ip s3]. simpl.
  rewrite read_fraction_app by done.
  destruct (read_fraction s3) as [fp s4]. simpl.
  destruct (is_empty ip && is_empty fp); [done|].
  destruct (read_exponent s4) as [[ex r]|] eqn:E; [|done].
  rewrite (read_exponent_app _ _ _ _ Ht E).
  unfold finite. case_match; [done|]. by intros [= <- <-].
Qed.

(** A number followed by characters that cannot continue it is read as
    the number alone, and the characters stay in the stream. *)
Lemma extract_double_app s t v rest :
  trailing t → extract_double s = Some (v, rest) →
  extract_double (s +:+ t) = Some (v, rest +:+ t).
Proof.
  intros Ht. unfold extract_double. intros H.
  assert (skipws s ≠ "") as Hne by (by intros E; rewrite E in H).
  rewrite skipws_app by done. by apply extract_number_app.
Qed.

Lemma read_double_numeric_prefix p t v :
  numeric p v → trailing t → read_double (p +:+ t) = Some v.
Proof.
  intros Hp Ht. unfold read_double.
  by rewrite (extract_double_app _ _ _ _ Ht Hp).
Qed.

Lemma numeric_read_double f v : numeric f v → read_double f = Some v.
Proof. unfold numeric, read_double. by intros ->. Qed.

Lemma checkIntrinsicStringValidity_nine K o :
  length (split (is_any_of ";") K) = 9%nat →
  checkIntrinsicStringValidity K o = readFields 0 (split (is_any_of ";") K) o.
Proof. intros H. unfold checkIntrinsicStringValidity. by rewrite H. Qed.

(** C4. A K-matrix string that does not have exactly nine fields between
    its semicolons is rejected; one with nine fields none of which starts
    with a number is rejected; one with nine numeric fields is accepted,
    and its fields 0, 2 and 5 are written to the focal length and to the
    two principal point offsets. *)
Theorem checkIntrinsicStringValidity_fields :
  (∀ K o, length (split (is_any_of ";") K) ≠ 9%nat →
          checkIntrinsicStringValidity K o = (false, o))
  ∧ (∀ K o, length (split (is_any_of ";") K) = 9%nat →
            Forall (λ f, read_double f = None) (split (is_any_of ";") K) →
            checkIntrinsicStringValidity K o = (false, o))
  ∧ (∀ K o v0 v1 v2 v3 v4 v5 v6 v7 v8,
       Forall2 numeric (split (is_any_of ";") K)
                       [v0; v1; v2; v3; v4; v5; v6; v7; v8] →
       checkIntrinsicStringValidity K o
       = (true, {| focal := v0; ppx := v2; ppy := v5 |})).
Proof.
  split; [|split].
  - intros K o H. unfold checkIntrinsicStringValidity.
    destruct (Nat.eqb_spec (length (split (is_any_of ";") K)) 9); done.
  - intros K o Hlen Hall. rewrite checkIntrinsicStringValidity_nine by done.
    destruct (split (is_any_of ";") K) as [|f fs]; [done|].
    apply readFields_fail. by inversion Hall.
  - intros K o v0 v1 v2 v3 v4 v5 v6 v7 v8 Hall.
    rewrite checkIntrinsicStringValidity_nine
      by (by rewrite (Forall2_length _ _ _ Hall)).
    erewrite readFields_all
      by (eapply Forall2_impl; [exact Hall|]; apply numeric_read_double).
    reflexivity.
Qed.

Lemma checkIntrinsicStringValidity_fields_witness :
  checkIntrinsicStringValidity "1200;0;960;0;1200;540;0;0" unset = (false, unset)
  ∧ checkIntrinsicStringValidity "f;zero;ppx;zero;f;ppy;zero;zero;one" unset = (false, unset)
  ∧ checkIntrinsicStringValidity "1200;0;960.5;0;1200;54e1;0;0;1" unset
    = (true, {| focal := 1200; ppx := 1921 # 2; ppy := 540 |}).
Proof.
  destruct checkIntrinsicStringValidity_fields as (Hlen & Hnan & Hok).
  split; [|split].
  - apply Hlen. vm_compute. lia.
  - apply Hnan; [reflexivity|].
    change (split (is_any_of ";") "f;zero;ppx;zero;f;ppy;zero;zero;one")
      with ["f"; "zero"; "ppx"; "zero"; "f"; "ppy"; "zero"; "zero"; "one"].
    repeat (constructor; [reflexivity|]). constructor.
  - apply (Hok _ _ 1200 0 (1921 # 2) 0 1200 540 0 0 1)%Q.
    change (split (is_any_of ";") "1200;0;960.5;0;1200;54e1;0;0;1")
      with ["1200"; "0"; "960.5"; "0"; "1200"; "54e1"; "0"; "0"; "1"].
    repeat (constructor; [vm_compute; reflexivity|]). constructor.
Defined.

Lemma read_double_prefixes (ps ts : list string) (vs : list double) :
  length ps = length ts →
  Forall2 numeric ps vs → Forall trailing ts →
  Forall2 (λ f v, read_double f = Some v) (zip_with String.append ps ts) vs.
Proof.
  intros Hlen Hps. revert ts Hlen.
  induction Hps as [|p v ps vs Hp _ IH]; intros [|t ts] Hlen Hts;
    simpl in *; try done.
  inversion Hts; subst. constructor.
  - by apply read_double_numeric_prefix.
  - apply IH; [lia|done].
Qed.

(** C10, amended. A field made of a number followed by the end of the
    field or by characters of which the first is neither a digit, nor a
    point, nor an exponent mark is accepted all the same: with nine such
    fields the check succeeds and stores the values of the numeric
    prefixes of fields 0, 2 and 5. *)
Theorem checkIntrinsicStringValidity_numeric_prefix
    K o (ps ts : list string) v0 v1 v2 v3 v4 v5 v6 v7 v8 :
  split (is_any_of ";") K = zip_with String.append ps ts →
  length ts = 9%nat →
  Forall2 numeric ps [v0; v1; v2; v3; v4; v5; v6; v7; v8] →
  Forall trailing ts →
  checkIntrinsicStringValidity K o
  = (true, {| focal := v0; ppx := v2; ppy := v5 |}).
Proof.
  intros Hsplit Hlen Hps Hts.
  pose proof (Forall2_length _ _ _ Hps) as Hlen'. simpl in Hlen'.
  pose proof (read_double_prefixes ps ts _ ltac:(lia) Hps Hts) as Hall.
  rewrite <- Hsplit in Hall.
  rewrite checkIntrinsicStringValidity_nine
    by (by rewrite (Forall2_length _ _ _ Hall)).
  by erewrite readFields_all by exact Hall.
Qed.

Lemma checkIntrinsicStringValidity_numeric_prefix_witness :
  checkIntrinsicStringValidity "3.5abc;0;960px;0;3.5abc;54e1 ;0;0;1" unset
  = (true, {| focal := 7 # 2; ppx := 960; ppy := 540 |})
  ∧ extract_double "3.5abc" = Some (7 # 2, "abc")%Q.
Proof.
  split; [|vm_compute; reflexivity].
  apply (checkIntrinsicStringValidity_numeric_prefix _ _
           ["3.5"; "0"; "960"; "0"; "3.5"; "54e1"; "0"; "0"; "1"]
           ["abc"; ""; "px"; ""; "abc"; " "; ""; ""; ""]
           (7 # 2) 0 960 0 (7 # 2) 540 0 0 1)%Q.
  - vm_compute; reflexivity.
  - reflexivity.
  - repeat (constructor; [vm_compute; reflexivity|]). constructor.
  - repeat (constructor; [by vm_compute|]). constructor.
Defined.

(** C10 as stated fails when the trailing characters start with an
    exponent mark that no exponent follows: the mark is taken into the
    number, the conversion fails, and the string is rejected although the
    field starts with the number 3.5 and goes on with letters. *)
Lemma checkIntrinsicStringValidity_exponent_mark_counterexample :
  numeric "3.5" (7 # 2)%Q
  ∧ is_digit "e" = false ∧ is_digit "m" = false
  ∧ read_double "3.5em" = None
  ∧ checkIntrinsicStringValidity "3.5em;0;960;0;3.5;540;0;0;1" unset
    = (false, unset).
Proof.
  repeat split; vm_compute; reflexivity.
Qed.

End KMatrixFacts.

(** * Facts about serial numbers of rig cameras *)

Section RigSerialNumber.

Lemma occurs_pretty_N_go x s :
  occurs "_" s = false → occurs "_" (pretty_N_go x s) = false.
Proof.
  revert s. induction (N.lt_wf_0 x) as [x _ IH]; intros s Hs.
  destruct (decide (x = 0)%N) as [->|Hx]; [by rewrite pretty_N_go_0|].
  rewrite pretty_N_go_step by lia.
  apply IH; [apply N.div_lt; lia|].
  simpl. rewrite Hs. unfold pretty_N_char.
  by repeat case_match.
Qed.

Lemma occurs_to_string z : occurs "_" (to_string z) = false.
Proof.
  unfold to_string, pretty, pretty_Z.
  destruct z as [|x|x]; [done| |];
    unfold pretty, pretty_positive, pretty, pretty_N; simpl.
  - by apply occurs_pretty_N_go.
  - change (occurs "_" (String "-" (pretty_N_go (N.pos x) "")) = false).
    simpl. by apply occurs_pretty_N_go.
Qed.

Lemma append_separator_inj a a' b b' :
  occurs "_" a = false → occurs "_" a' = false →
  a +:+ String "_" b = a' +:+ String "_" b' → a = a' ∧ b = b'.
Proof.
  revert a'. induction a as [|c a IH]; intros [|c' a'] Ha Ha' H; simpl in *.
  - by injection H as ->.
  - injection H as <- _. by rewrite Ascii.eqb_refl in Ha'.
  - injection H as -> _. by rewrite Ascii.eqb_refl in Ha.
  - injection H as -> H.
    apply orb_false_elim in Ha as [_ Ha]. apply orb_false_elim in Ha' as [_ Ha'].
    by destruct (IH _ Ha Ha' H) as [-> ->].
Qed.

(** Different positions in a rig, or different rigs, have different
    serial numbers. *)
Lemma rigSerialNumber_inj r s r' s' :
  rigSerialNumber r s = rigSerialNumber r' s' → r = r' ∧ s = s'.
Proof.
  unfold rigSerialNumber. simpl. intros H.
  repeat injection H as H.
  apply append_separator_inj in H as [Hr Hs]; auto using occurs_to_string.
  split; by apply (inj pretty).
Qed.

End RigSerialNumber.

(** * Facts about the pass *)

Section PassFacts.

Variable getInfo : string → string → list Datasheet → option Datasheet.
Variable getViewIntrinsic :
  View → double → double → double → EINTRINSIC → double → double → Intrinsic.
Variable hashValue : Intrinsic → Z.
Variable rand : nat → Z.
Variable cfg : Config.

Local Abbreviation step := (processView getInfo getViewIntrinsic hashValue rand cfg).
Local Abbreviation publish := (buildAndPublish getViewIntrinsic hashValue rand cfg).
Local Abbreviation pass := (createMissingIntrinsics getInfo getViewIntrinsic hashValue rand cfg).
Local Abbreviation cand := (candidate getInfo getViewIntrinsic cfg).
Local Abbreviation builds := (reachesBuild getInfo cfg).
Local Abbreviation known := (sensorKnown getInfo cfg).
Local Abbreviation gid := (groupId hashValue rand cfg).

(** ** One iteration *)

Lemma buildAndPublish_view st v sw :
  (publish st v sw).2
  = setIntrinsicId (gid st v (builtIntrinsic getViewIntrinsic cfg v sw)) v.
Proof.
  unfold buildAndPublish, groupId.
  destruct (dpos _); destruct (bool_decide (groupCameraModel cfg = 0)); reflexivity.
Qed.

Lemma existingIntrinsic_unassigned st v :
  intrinsicId v = UndefinedIndexT → existingIntrinsic st v = None.
Proof. intros H. unfold existingIntrinsic. by rewrite bool_decide_eq_false_2 by tauto. Qed.

(** A view that reaches "build intrinsic" leaves the iteration with the
    id computed for its candidate intrinsic. *)
Lemma processView_reaches st v :
  existingIntrinsic st v = None → builds v = true →
  (step st v).2 = setIntrinsicId (gid st v (cand v)) v.
Proof.
  intros Hex Hb. unfold processView. rewrite Hex.
  unfold reachesBuild, sensorKnown in Hb.
  unfold candidate, sensorWidthOf.
  destruct (hasCameraMetadata v).
  - destruct (getInfo _ _ _) as [d|]; [apply buildAndPublish_view|].
    simpl in Hb. rewrite Hb. simpl. by rewrite buildAndPublish_view.
  - destruct (allowIncompleteOutput cfg); [done|]. simpl.
    by rewrite buildAndPublish_view.
Qed.

(** ** The loop *)

Lemma pass_cons st v rest :
  pass st (v :: rest)
  = ((pass (step st v).1 rest).1,
     (step st v).2 :: (pass (step st v).1 rest).2).
Proof.
  simpl. destruct (step st v) as [st1 v']. simpl.
  by destruct (pass st1 rest) as [st2 rest'].
Qed.

Lemma pass_app st l1 l2 :
  pass st (l1 ++ l2)
  = ((pass (pass st l1).1 l2).1, (pass st l1).2 ++ (pass (pass st l1).1 l2).2).
Proof.
  revert st. induction l1 as [|v l1 IH]; intros st.
  - simpl. by destruct (pass st l2).
  - rewrite <- app_comm_cons, !pass_cons, IH. reflexivity.
Qed.

(** No view is dropped or added: the loop visits every view. *)
Lemma pass_length st views : length (pass st views).2 = length views.
Proof.
  revert st. induction views as [|v views IH]; intros st; [done|].
  rewrite pass_cons. simpl. by rewrite IH.
Qed.

(** The view at a position of the result is the view at that position of
    the input, after its iteration from the state left by the views
    before it. *)
Lemma pass_lookup st views j v :
  views !! j = Some v →
  (pass st views).2 !! j = Some (step (pass st (take j views)).1 v).2.
Proof.
  revert st j. induction views as [|w views IH]; intros st j Hj; [done|].
  rewrite pass_cons. destruct j as [|j]; simpl in *.
  - by inversion Hj.
  - rewrite (IH _ _ Hj). f_equal.
    destruct (step st w) as [st1 w'] eqn:E. simpl.
    by destruct (pass st1 (take j views)).
Qed.

(** ** Views that are already complete *)

Lemma alreadyComplete_addComplete n st v :
  alreadyComplete st v → alreadyComplete (addComplete n st) v.
Proof. by intros (i & Hi & Hf); exists i. Qed.

Lemma step_alreadyComplete st v :
  alreadyComplete st v → step st v = (incrCompleteViewCount st, v).
Proof.
  intros (i & Hi & Hf). unfold processView. by rewrite Hi, Hf.
Qed.

Lemma pass_alreadyComplete st views :
  Forall (alreadyComplete st) views →
  pass st views = (addComplete (length views) st, views).
Proof.
  revert st. induction views as [|v views IH]; intros st Hall.
  - by destruct st.
  - inversion Hall as [|? ? Hv Hrest]; subst.
    rewrite pass_cons, (step_alreadyComplete _ _ Hv). simpl.
    rewrite IH.
    + simpl. f_equal. unfold addComplete, incrCompleteViewCount. simpl.
      f_equal. lia.
    + eapply Forall_impl; [exact Hrest|]. intros w.
      apply (alreadyComplete_addComplete 1).
Qed.

(** C8. When every view already has a group id whose intrinsic exists and
    has a positive initial focal length, the pass returns the views as
    they were, leaves the intrinsics and both anomaly records as they
    were, and adds the number of views to the counter of complete views. *)
Theorem rerun_is_identity st views :
  Forall (λ v, intrinsicId v ≠ UndefinedIndexT
               ∧ ∃ i, intrinsics st !! intrinsicId v = Some i
                      ∧ dpos (initialFocalLengthPix i) = true) views →
  (pass st views).2 = views
  ∧ intrinsics (pass st views).1 = intrinsics st
  ∧ noMetadataImagePaths (pass st views).1 = noMetadataImagePaths st
  ∧ unknownSensors (pass st views).1 = unknownSensors st
  ∧ completeViewCount (pass st views).1
    = (length views + completeViewCount st)%nat.
Proof.
  intros Hall. rewrite pass_alreadyComplete; [done|].
  eapply Forall_impl; [exact Hall|]. intros v (Hid & i & Hi & Hf).
  exists i. split; [|done]. unfold existingIntrinsic.
  by rewrite bool_decide_eq_true_2.
Qed.

(** ** Group ids of the views without a previous id *)

Lemma gid_hash st v i :
  groupCameraModel cfg ≠ 0 → intrinsicId v = UndefinedIndexT →
  gid st v i = toIndexT (hashValue i).
Proof.
  intros Hm Hid. unfold groupId.
  by rewrite bool_decide_eq_false_2, bool_decide_eq_true_2.
Qed.

(** Outside of mode 0, a view without a previous id for which an intrinsic
    is built gets the hash of that intrinsic, cut to the width of an id. *)
Lemma unassigned_view_id st views j v :
  groupCameraModel cfg ≠ 0 →
  views !! j = Some v →
  intrinsicId v = UndefinedIndexT → builds v = true →
  (pass st views).2 !! j
  = Some (setIntrinsicId (toIndexT (hashValue (cand v))) v).
Proof.
  intros Hm Hj Hid Hb. rewrite (pass_lookup _ _ _ _ Hj).
  rewrite processView_reaches by auto using existingIntrinsic_unassigned.
  by rewrite gid_hash.
Qed.

(** In every mode but 0, a view that comes with a group id, finds no
    intrinsic under it and has an intrinsic built keeps its id. *)
Lemma processView_keeps_id st v :
  groupCameraModel cfg ≠ 0 → intrinsicId v ≠ UndefinedIndexT →
  intrinsics st !! intrinsicId v = None → builds v = true →
  intrinsicId (step st v).2 = intrinsicId v.
Proof.
  intros Hm Hid Hnone Hb.
  rewrite processView_reaches; [|unfold existingIntrinsic; by case_bool_decide|done].
  simpl. unfold groupId. by rewrite !bool_decide_eq_false_2.
Qed.

(** C1, amended. In the default mode, two views that carry no previous
    group id and for which an intrinsic is built get the same group id
    when the built intrinsics (family, focal length, principal point and
    serial number, after the override of the serial number) are identical,
    and different group ids when the built intrinsics differ and their
    hashes do not collide.  A view that comes with a group id and for
    which an intrinsic is built keeps that id, whatever is built for it,
    from whatever state of the shared data in which no intrinsic is found
    under that id. *)
Theorem default_mode_groups_by_built_intrinsic st views j1 j2 v1 v2 v1' v2' :
  groupCameraModel cfg = 2 →
  views !! j1 = Some v1 → views !! j2 = Some v2 →
  (pass st views).2 !! j1 = Some v1' → (pass st views).2 !! j2 = Some v2' →
  builds v1 = true → builds v2 = true →
  (intrinsicId v1 = UndefinedIndexT → intrinsicId v2 = UndefinedIndexT →
   (cand v1 = cand v2 → intrinsicId v1' = intrinsicId v2')
   ∧ (cand v1 ≠ cand v2 →
      (toIndexT (hashValue (cand v1)) = toIndexT (hashValue (cand v2)) →
       cand v1 = cand v2) →
      intrinsicId v1' ≠ intrinsicId v2'))
  ∧ (∀ st0, intrinsicId v1 ≠ UndefinedIndexT →
            intrinsics st0 !! intrinsicId v1 = None →
            intrinsicId (step st0 v1).2 = intrinsicId v1).
Proof.
  intros Hm Hj1 Hj2 Ho1 Ho2 Hb1 Hb2.
  assert (groupCameraModel cfg ≠ 0) as Hm0 by (rewrite Hm; lia).
  split.
  - intros Hid1 Hid2.
    rewrite (unassigned_view_id _ _ _ _ Hm0 Hj1 Hid1 Hb1) in Ho1.
    rewrite (unassigned_view_id _ _ _ _ Hm0 Hj2 Hid2 Hb2) in Ho2.
    injection Ho1 as <-. injection Ho2 as <-. simpl. split.
    + by intros ->.
    + intros Hne Hinj Heq. by apply Hne, Hinj.
  - intros st0 Hid Hnone. by apply processView_keeps_id.
Qed.

(** ** Rig cameras without metadata *)

Lemma candidate_rig v r s :
  hasCameraMetadata v = false → rig v = Some (r, s) →
  cand v = setSerialNumber (rigSerialNumber r s)
             (getViewIntrinsic v (-1)%Q (defaultFocalLengthPixel cfg)
                (defaultFieldOfView cfg) (defaultCameraModel cfg)
                (defaultPPx cfg) (defaultPPy cfg)).
Proof.
  intros Hmeta Hrig.
  unfold candidate, sensorWidthOf, builtIntrinsic, overrideSerialNumber.
  unfold isPartOfRig, getRigId, getSubPoseId. rewrite Hmeta, Hrig. simpl.
  by destruct (bool_decide (groupCameraModel cfg = 2)).
Qed.

Lemma builds_no_metadata v :
  hasCameraMetadata v = false → allowIncompleteOutput cfg = false →
  builds v = true.
Proof. intros Hmeta Hinc. unfold reachesBuild. by rewrite Hmeta, Hinc. Qed.

(** C5, amended. In mode 1, a view that carries no previous group id, has
    camera metadata or belongs to a rig, and for which an intrinsic is
    built, gets the hash of the built intrinsic, cut to the width of an
    id.  With metadata that intrinsic is the one of the builder; for a rig
    view without metadata its serial number is the one of the rig
    position.  Two such views whose built intrinsics are identical share
    their group. *)
Theorem metadata_else_per_view_groups_by_hash st views j1 j2 v1 v2 v1' v2' :
  groupCameraModel cfg = 1 →
  views !! j1 = Some v1 → views !! j2 = Some v2 →
  (pass st views).2 !! j1 = Some v1' → (pass st views).2 !! j2 = Some v2' →
  intrinsicId v1 = UndefinedIndexT → intrinsicId v2 = UndefinedIndexT →
  builds v1 = true → builds v2 = true →
  hasCameraMetadata v1 || isPartOfRig v1 = true →
  hasCameraMetadata v2 || isPartOfRig v2 = true →
  intrinsicId v1' = toIndexT (hashValue (cand v1))
  ∧ (hasCameraMetadata v1 = true →
     cand v1 = getViewIntrinsic v1 (sensorWidthOf getInfo cfg v1)
                 (defaultFocalLengthPixel cfg) (defaultFieldOfView cfg)
                 (defaultCameraModel cfg) (defaultPPx cfg) (defaultPPy cfg))
  ∧ (hasCameraMetadata v1 = false →
     ∀ r s, rig v1 = Some (r, s) → serialNumber (cand v1) = rigSerialNumber r s)
  ∧ (cand v1 = cand v2 → intrinsicId v1' = intrinsicId v2').
Proof.
  intros Hm Hj1 Hj2 Ho1 Ho2 Hid1 Hid2 Hb1 Hb2 _ _.
  assert (groupCameraModel cfg ≠ 0) as Hm0 by (rewrite Hm; lia).
  rewrite (unassigned_view_id _ _ _ _ Hm0 Hj1 Hid1 Hb1) in Ho1.
  rewrite (unassigned_view_id _ _ _ _ Hm0 Hj2 Hid2 Hb2) in Ho2.
  injection Ho1 as <-. injection Ho2 as <-. simpl.
  split; [done|split; [|split]].
  - intros Hmeta. unfold candidate, builtIntrinsic, overrideSerialNumber.
    by rewrite Hmeta.
  - intros Hmeta r s Hrig. by rewrite (candidate_rig _ _ _ Hmeta Hrig).
  - by intros ->.
Qed.

(** In mode 0, the view at a position of the result, when it came without
    a group id and an intrinsic is built for it, has the result of a call
    of [std::rand] as its id. *)
Lemma per_view_mode_view_id st views j v :
  groupCameraModel cfg = 0 →
  views !! j = Some v →
  intrinsicId v = UndefinedIndexT → builds v = true →
  ∃ n, (pass st views).2 !! j = Some (setIntrinsicId (toIndexT (rand n)) v).
Proof.
  intros Hm Hj Hid Hb. exists (randCalls (pass st (take j views)).1).
  rewrite (pass_lookup _ _ _ _ Hj).
  rewrite processView_reaches by auto using existingIntrinsic_unassigned.
  unfold groupId. by rewrite bool_decide_eq_true_2.
Qed.

(** C7, amended. A rig view without metadata and without a previous group
    id, for which an intrinsic is built, has the serial number of its
    intrinsic set from its rig id and sub-pose id, whatever its folder and
    whatever the mode.  Outside of mode 0 it gets the hash of that
    intrinsic as group id, and two such views at different positions, or
    in different rigs, get different group ids when the hashes of their
    intrinsics do not collide.  In mode 0 its group id is the result of a
    call of [std::rand]. *)
Theorem rig_views_grouped_by_position
    st views j1 j2 v1 v2 v1' v2' r1 s1 r2 s2 :
  allowIncompleteOutput cfg = false →
  views !! j1 = Some v1 → views !! j2 = Some v2 →
  (pass st views).2 !! j1 = Some v1' → (pass st views).2 !! j2 = Some v2' →
  intrinsicId v1 = UndefinedIndexT → intrinsicId v2 = UndefinedIndexT →
  hasCameraMetadata v1 = false → hasCameraMetadata v2 = false →
  rig v1 = Some (r1, s1) → rig v2 = Some (r2, s2) →
  serialNumber (cand v1) = rigSerialNumber r1 s1
  ∧ (groupCameraModel cfg ≠ 0 →
     intrinsicId v1' = toIndexT (hashValue (cand v1))
     ∧ ((r1, s1) ≠ (r2, s2) →
        (toIndexT (hashValue (cand v1)) = toIndexT (hashValue (cand v2)) →
         cand v1 = cand v2) →
        intrinsicId v1' ≠ intrinsicId v2'))
  ∧ (groupCameraModel cfg = 0 → ∃ n, intrinsicId v1' = toIndexT (rand n)).
Proof.
  intros Hinc Hj1 Hj2 Ho1 Ho2 Hid1 Hid2 Hmeta1 Hmeta2 Hrig1 Hrig2.
  pose proof (builds_no_metadata _ Hmeta1 Hinc) as Hb1.
  pose proof (builds_no_metadata _ Hmeta2 Hinc) as Hb2.
  split; [by rewrite (candidate_rig _ _ _ Hmeta1 Hrig1)|]. split.
  - intros Hm.
    rewrite (unassigned_view_id _ _ _ _ Hm Hj1 Hid1 Hb1) in Ho1.
    rewrite (unassigned_view_id _ _ _ _ Hm Hj2 Hid2 Hb2) in Ho2.
    injection Ho1 as <-. injection Ho2 as <-. simpl.
    split; [done|].
    intros Hne Hinj Heq. apply Hinj in Heq.
    apply (f_equal serialNumber) in Heq.
    rewrite (candidate_rig _ _ _ Hmeta1 Hrig1),
            (candidate_rig _ _ _ Hmeta2 Hrig2) in Heq.
    simpl in Heq. apply rigSerialNumber_inj in Heq as [-> ->]. done.
  - intros Hm.
    destruct (per_view_mode_view_id st _ _ _ Hm Hj1 Hid1 Hb1) as [n Hn].
    rewrite Hn in Ho1. injection Ho1 as <-. by exists n.
Qed.

(** ** The reserved id *)

Lemma toIndexT_rand (r : Z) :
  (0 ≤ r ≤ INT_MAX)%Z → toIndexT r ≠ UndefinedIndexT.
Proof.
  unfold toIndexT, UndefinedIndexT, IndexT_modulus, INT_MAX. intros Hr.
  rewrite Z.mod_small; lia.
Qed.

(** X23. The id that an iteration gives to a view for which it builds an
    intrinsic is compared with nothing before it is stored: it is not the
    reserved id when it is drawn with [std::rand] or was carried by the
    view; when it is the hash of the built intrinsic, it is the reserved
    id exactly when that hash, cut to the width of an id, is the reserved
    id. *)
Theorem assigned_id_reserved_iff st v :
  existingIntrinsic st v = None → builds v = true →
  (0 ≤ rand (randCalls st) ≤ INT_MAX)%Z →
  intrinsicId (step st v).2 = UndefinedIndexT
  ↔ groupCameraModel cfg ≠ 0 ∧ intrinsicId v = UndefinedIndexT
    ∧ toIndexT (hashValue (cand v)) = UndefinedIndexT.
Proof.
  intros Hex Hb Hr. rewrite processView_reaches by done. simpl.
  unfold groupId.
  destruct (bool_decide_reflect (groupCameraModel cfg = 0)) as [Hm|Hm].
  - split; [|tauto]. intros H. by apply toIndexT_rand in H.
  - destruct (bool_decide_reflect (intrinsicId v = UndefinedIndexT)) as [Hid|Hid];
      tauto.
Qed.

(** ** The record of unknown sensors *)

Lemma emplace_is_Some `{Countable K} {V} (k k' : K) (x : V) (m : gmap K V) :
  is_Some (m !! k') → is_Some (emplace k x m !! k').
Proof.
  intros Hk'. unfold emplace. destruct (m !! k) eqn:E; [done|].
  destruct (decide (k = k')) as [->|Hne].
  - by rewrite lookup_insert_eq.
  - by rewrite lookup_insert_ne.
Qed.

Lemma emplace_lookup `{Countable K} {V} (k : K) (x : V) (m : gmap K V) :
  emplace k x m !! k = Some (default x (m !! k)).
Proof.
  unfold emplace. destruct (m !! k) eqn:E; [done|]. by rewrite lookup_insert_eq.
Qed.

Lemma emplace_lookup_inv `{Countable K} {V} (k k' : K) (x y : V) (m : gmap K V) :
  emplace k x m !! k' = Some y → m !! k' = Some y ∨ (k' = k ∧ y = x).
Proof.
  unfold emplace. destruct (m !! k) eqn:E; [by left|].
  destruct (decide (k = k')) as [->|Hne].
  - rewrite lookup_insert_eq. intros [= <-]. by right.
  - rewrite lookup_insert_ne by done. by left.
Qed.

Lemma buildAndPublish_unknownSensors st v sw :
  unknownSensors (publish st v sw).1 = unknownSensors st.
Proof.
  unfold buildAndPublish.
  destruct (dpos _); destruct (bool_decide (groupCameraModel cfg = 0)); reflexivity.
Qed.

(** An iteration leaves the record as it is, or adds the view to it. *)
Lemma step_unknownSensors st v :
  unknownSensors (step st v).1 = unknownSensors st
  ∨ unknownSensors (step st v).1
    = emplace (sensorKey v) (imagePath v) (unknownSensors st).
Proof.
  unfold processView.
  repeat (case_match; simpl; rewrite ?buildAndPublish_unknownSensors; auto).
Qed.

Lemma step_unknownSensors_mono st v k :
  is_Some (unknownSensors st !! k) → is_Some (unknownSensors (step st v).1 !! k).
Proof.
  intros Hk. destruct (step_unknownSensors st v) as [->| ->]; [done|].
  by apply emplace_is_Some.
Qed.

Lemma pass_unknownSensors_mono st views k :
  is_Some (unknownSensors st !! k) → is_Some (unknownSensors (pass st views).1 !! k).
Proof.
  revert st. induction views as [|v views IH]; intros st Hk; [done|].
  rewrite pass_cons. simpl. by apply IH, step_unknownSensors_mono.
Qed.

Lemma pass_recordedFrom st views :
  recordedFrom views (unknownSensors st) (unknownSensors (pass st views).1).
Proof.
  revert st. induction views as [|v views IH]; intros st k p Hp.
  - by left.
  - rewrite pass_cons in Hp. simpl in Hp.
    destruct (IH _ _ _ Hp) as [H0|(w & Hw & Hk & Hpath)].
    + destruct (step_unknownSensors st v) as [E|E]; rewrite E in H0; [by left|].
      apply emplace_lookup_inv in H0 as [H0|[-> ->]]; [by left|].
      right. exists v. split; [apply list_elem_of_here|done].
    + right. exists w. split; [by apply list_elem_of_further|done].
Qed.

(** A view with the metadata of a sensor that the database does not know
    is added to the record, unless it already refers to an intrinsic with
    a positive focal length. *)
Lemma step_records st v :
  hasCameraMetadata v = true → known v = false → ¬ alreadyComplete st v →
  unknownSensors (step st v).1
  = emplace (sensorKey v) (imagePath v) (unknownSensors st).
Proof.
  intros Hmeta Hknown Hnc. unfold processView. rewrite Hmeta, Hknown.
  unfold sensorKnown in Hknown.
  destruct (existingIntrinsic st v) as [i|] eqn:Hex.
  - destruct (dpos (initialFocalLengthPix i)) eqn:Hf; [|done].
    destruct Hnc. by exists i.
  - destruct (getInfo _ _ _) as [d|].
    + by rewrite bool_decide_eq_true_2 in Hknown.
    + destruct (allowIncompleteOutput cfg); simpl;
        by rewrite ?buildAndPublish_unknownSensors.
Qed.

(** ** Views without metadata when incomplete output is allowed *)

Lemma setIntrinsicId_same v : setIntrinsicId (intrinsicId v) v = v.
Proof. by destruct v. Qed.

Lemma pass_no_metadata st views :
  allowIncompleteOutput cfg = true →
  Forall (λ v, hasCameraMetadata v = false ∧ intrinsicId v = UndefinedIndexT) views →
  pass st views = (addNoMetadata (imagePath <$> views) st, views).
Proof.
  intros Hinc. revert st. induction views as [|v views IH]; intros st Hall.
  - simpl. unfold addNoMetadata. rewrite app_nil_r. by destruct st.
  - inversion Hall as [|? ? [Hmeta Hid] Hrest]; subst.
    rewrite pass_cons. unfold processView at 1 2 3.
    rewrite (existingIntrinsic_unassigned _ _ Hid), Hmeta, Hinc. simpl.
    rewrite (IH _ Hrest). rewrite <- Hid at 1. rewrite setIntrinsicId_same.
    f_equal. unfold addNoMetadata, recordNoMetadata. simpl.
    by rewrite <- app_assoc.
Qed.

End PassFacts.

(** * Facts about the end of the run *)

Section RunFacts.

Variable getInfo : string → string → list Datasheet → option Datasheet.
Variable getViewIntrinsic :
  View → double → double → double → EINTRINSIC → double → double → Intrinsic.
Variable hashValue : Intrinsic → Z.
Variable rand : nat → Z.
Variable Save : list View → gmap Z Intrinsic → bool.
Variable cfg : Config.

Local Abbreviation step := (processView getInfo getViewIntrinsic hashValue rand cfg).
Local Abbreviation pass := (createMissingIntrinsics getInfo getViewIntrinsic hashValue rand cfg).
Local Abbreviation known := (sensorKnown getInfo cfg).
Local Abbreviation run := (cameraInit getInfo getViewIntrinsic hashValue rand Save cfg).

Lemma run_state views kn :
  views ≠ [] →
  outState (run views kn) = (pass (initialState kn) views).1
  ∧ outViews (run views kn) = (pass (initialState kn) views).2.
Proof.
  intros Hne. unfold cameraInit. rewrite bool_decide_eq_false_2 by done.
  destruct (pass (initialState kn) views) as [st views'].
  by repeat (case_match; simpl).
Qed.

Lemma run_fails_unknown_sensors views kn :
  views ≠ [] → allowIncompleteOutput cfg = false →
  unknownSensors (outState (run views kn)) ≠ ∅ →
  exitCode (run views kn) = EXIT_FAILURE.
Proof.
  intros Hne Hinc. unfold cameraInit. rewrite bool_decide_eq_false_2 by done.
  destruct (pass (initialState kn) views) as [st views']. rewrite Hinc. simpl.
  destruct (bool_decide_reflect (unknownSensors st = ∅)); simpl; [|done].
  by repeat (case_match; simpl).
Qed.

Lemma run_succeeds_incomplete views kn :
  views ≠ [] → allowIncompleteOutput cfg = true →
  Save (outViews (run views kn)) (intrinsics (outState (run views kn))) = true →
  exitCode (run views kn) = EXIT_SUCCESS.
Proof.
  intros Hne Hinc. unfold cameraInit, notEnoughViews.
  rewrite bool_decide_eq_false_2 by done.
  destruct (pass (initialState kn) views) as [st views']. rewrite Hinc.
  rewrite andb_false_r. simpl. intros HS.
  destruct (Save views' (intrinsics st)) eqn:E; simpl in *; [done|].
  by rewrite E in HS.
Qed.

(** C2, amended. A view whose metadata has a make and a model that the
    database does not know, and which does not already refer to an
    intrinsic with a positive focal length when its turn comes, is in the
    record of unknown sensors at the end of the run, with the image path
    of a view of that make and model; every view is still visited; the run
    fails when incomplete output is not allowed, and succeeds when it is
    allowed and the result can be saved.  When such a view is alone and
    incomplete output is not allowed, the run fails and the record holds
    that make and model only. *)
Theorem unknown_sensor_recorded kn l1 v l2 :
  hasCameraMetadata v = true → known v = false →
  ¬ alreadyComplete (pass (initialState kn) l1).1 v →
  let out := run (l1 ++ v :: l2) kn in
  (∃ w, w ∈ l1 ++ v :: l2 ∧ sensorKey w = sensorKey v
        ∧ unknownSensors (outState out) !! sensorKey v = Some (imagePath w))
  ∧ length (outViews out) = length (l1 ++ v :: l2)
  ∧ (allowIncompleteOutput cfg = false → exitCode out = EXIT_FAILURE)
  ∧ (allowIncompleteOutput cfg = true →
     Save (outViews out) (intrinsics (outState out)) = true →
     exitCode out = EXIT_SUCCESS)
  ∧ (l1 = [] → l2 = [] →
     unknownSensors (outState out) = {[ sensorKey v := imagePath v ]}).
Proof.
  intros Hmeta Hknown Hnc out.
  assert (l1 ++ v :: l2 ≠ []) as Hne by (by destruct l1).
  destruct (run_state (l1 ++ v :: l2) kn Hne) as [Hst Hviews].
  assert (is_Some (unknownSensors (outState out) !! sensorKey v)) as [p Hp].
  { unfold out. rewrite Hst, pass_app, pass_cons. simpl.
    apply pass_unknownSensors_mono.
    rewrite step_records by done. rewrite emplace_lookup. eauto. }
  split; [|split; [|split; [|split]]].
  - pose proof Hp as Hp'. unfold out in Hp'. rewrite Hst in Hp'.
    apply pass_recordedFrom in Hp' as [H0|(w & Hw & Hk & Hpath)]; [done|].
    exists w. by rewrite Hpath.
  - unfold out. by rewrite Hviews, pass_length.
  - intros Hinc. apply run_fails_unknown_sensors; [done..|].
    intros E. fold out in E. by rewrite E in Hp.
  - intros Hinc. by apply run_succeeds_incomplete.
  - intros -> ->. unfold out. rewrite Hst. simpl.
    destruct (step (initialState kn) v) as [st1 v'] eqn:E. simpl.
    change st1 with (st1, v').1. rewrite <- E.
    rewrite step_records by done. reflexivity.
Qed.

(** C3, amended. When incomplete output is not allowed, the run fails
    whenever the number of complete views is below the minimum, 2, or 1
    when a single view is allowed; with at least that many complete views
    it succeeds when no unknown sensor was recorded and the result can be
    saved.  So with exactly one complete view the run fails when a single
    view is not allowed, and succeeds under these two conditions when it
    is. *)
Theorem not_enough_complete_views views kn :
  allowIncompleteOutput cfg = false →
  let out := run views kn in
  let n := completeViewCount (outState out) in
  let minimum := if allowSingleView cfg then 1%nat else 2%nat in
  ((n < minimum)%nat → exitCode out = EXIT_FAILURE)
  ∧ ((minimum ≤ n)%nat → unknownSensors (outState out) = ∅ →
     Save (outViews out) (intrinsics (outState out)) = true →
     exitCode out = EXIT_SUCCESS)
  ∧ (n = 1%nat → allowSingleView cfg = false → exitCode out = EXIT_FAILURE).
Proof.
  intros Hinc out n minimum.
  assert ((n < minimum)%nat → exitCode out = EXIT_FAILURE) as Hfail.
  { unfold n, minimum, out, cameraInit, notEnoughViews. rewrite Hinc.
    destruct (bool_decide (views = [])); [done|].
    destruct (pass (initialState kn) views) as [st views'].
    destruct (allowSingleView cfg); simpl;
      repeat (case_match; simpl; try done);
      intros Hn;
      repeat match goal with
             | H : (_ <? _)%nat = false |- _ => apply Nat.ltb_ge in H
             | H : _ || _ = false |- _ => apply orb_false_elim in H as [? ?]
             | H : _ && _ = false |- _ => rewrite andb_true_r in H
             end; lia. }
  split; [done|split].
  - unfold n, minimum, out, cameraInit, notEnoughViews. rewrite Hinc.
    destruct (bool_decide (views = [])); simpl;
      [destruct (allowSingleView cfg); lia|].
    destruct (pass (initialState kn) views) as [st views'].
    destruct (allowSingleView cfg); simpl;
      repeat (case_match; simpl; try done);
      intros Hn;
      repeat match goal with
             | H : (_ <? _)%nat = true |- _ => apply Nat.ltb_lt in H
             | H : _ || _ = true |- _ => apply orb_prop in H as [?|?]
             | H : _ && _ = true |- _ => rewrite andb_true_r in H
             | H : negb (bool_decide _) = true |- _ =>
                 apply negb_true_iff, bool_decide_eq_false in H
             | H : negb _ = true |- _ => apply negb_true_iff in H
             end; try lia; try congruence.
  - intros Hn Hs. apply Hfail. unfold minimum. rewrite Hs. lia.
Qed.

(** C6, amended. When incomplete output is allowed, for views that have no
    make and model in their metadata and no previous group id, the run
    records every image path as lacking metadata, in the order of the
    views, logs one warning that lists them all, and succeeds when the
    result can be saved; the views stay unassigned and no intrinsic is
    built for them: the intrinsics are the ones the run started with. *)
Theorem no_metadata_incomplete_allowed views kn :
  allowIncompleteOutput cfg = true → views ≠ [] →
  Forall (λ v, hasCameraMetadata v = false ∧ intrinsicId v = UndefinedIndexT) views →
  Save views kn = true →
  let out := run views kn in
  exitCode out = EXIT_SUCCESS
  ∧ outViews out = views
  ∧ Forall (λ v, intrinsicId v = UndefinedIndexT) (outViews out)
  ∧ intrinsics (outState out) = kn
  ∧ noMetadataImagePaths (outState out) = imagePath <$> views
  ∧ unknownSensors (outState out) = ∅
  ∧ completeViewCount (outState out) = 0%nat
  ∧ outLog out
    = WARNING_NO_METADATA :: (WARNING_IMAGE <$> (imagePath <$> views))
      ++ [INFO_REPORT (length views) 0 (size kn)].
Proof.
  intros Hinc Hne Hall HS out.
  assert (Forall (λ v, intrinsicId v = UndefinedIndexT) views) as Hun
    by (eapply Forall_impl; [exact Hall|]; by intros v [_ ?]).
  unfold out, cameraInit, notEnoughViews, noMetadataLog, unknownSensorsLog.
  rewrite bool_decide_eq_false_2 by done.
  rewrite pass_no_metadata by done. simpl.
  rewrite Hinc, HS. simpl.
  rewrite (bool_decide_eq_true_2 (∅ = ∅)) by done. simpl.
  destruct views as [|v views']; [done|]. simpl.
  rewrite app_nil_r. repeat split; done.
Qed.

End RunFacts.

(** * Runs on the datasets of the reference instance *)

Section Scenarios.

Import Reference.

Local Abbreviation builder := (getViewIntrinsic tanHalfFov).

(** ** Already complete datasets (C8) *)

Lemma rerun_is_identity_witness :
  let st := initialState {[ 7 := pinhole 1000 ]} in
  let views := [withIntrinsicId 7 acmeX; withIntrinsicId 7 canonA] in
  (pass (config 2 false false) st views).2 = views
  ∧ completeViewCount (pass (config 2 false false) st views).1 = 2%nat.
Proof.
  intros st views.
  destruct (rerun_is_identity getInfo builder hashValue rand
              (config 2 false false) st views) as (Hv & _ & _ & _ & Hc).
  - repeat (apply Forall_cons_2;
              [split; [vm_compute; congruence
                      |exists (pinhole 1000); split; vm_compute; reflexivity]|]).
    apply Forall_nil_2.
  - split; [exact Hv | exact Hc].
Defined.

(** ** Default mode (C1) *)

Lemma default_mode_groups_by_built_intrinsic_witness :
  let cfg := config 2 false false in
  let views := [canonA; canonB; nikonC] in
  intrinsicId <$> (pass cfg (initialState ∅) views).2
  = [1223081313; 1223081313; 2963153517]
  ∧ (built cfg canonA = built cfg canonB → 1223081313 = 1223081313)
  ∧ (built cfg canonA ≠ built cfg nikonC → 1223081313 ≠ 2963153517)
  ∧ intrinsicId (processView getInfo builder hashValue rand cfg (initialState ∅)
                   (withIntrinsicId 7 canonA)).2 = 7.
Proof.
  intros cfg views. split; [vm_compute; reflexivity|].
  destruct (default_mode_groups_by_built_intrinsic getInfo builder hashValue rand
              cfg (initialState ∅) views 0 1 canonA canonB
              (withIntrinsicId 1223081313 canonA)
              (withIntrinsicId 1223081313 canonB)) as [Hab _];
    try (vm_compute; reflexivity).
  destruct (default_mode_groups_by_built_intrinsic getInfo builder hashValue rand
              cfg (initialState ∅) views 0 2 canonA nikonC
              (withIntrinsicId 1223081313 canonA)
              (withIntrinsicId 2963153517 nikonC)) as [Hac _];
    try (vm_compute; reflexivity).
  destruct (default_mode_groups_by_built_intrinsic getInfo builder hashValue rand
              cfg (initialState ∅) [withIntrinsicId 7 canonA] 0 0
              (withIntrinsicId 7 canonA) (withIntrinsicId 7 canonA)
              (withIntrinsicId 7 canonA) (withIntrinsicId 7 canonA)) as [_ Hkeep];
    try (vm_compute; reflexivity).
  split; [|split].
  - apply Hab; vm_compute; reflexivity.
  - intros Hne. apply Hac; try (vm_compute; reflexivity); [exact Hne|].
    vm_compute. congruence.
  - apply (Hkeep (initialState ∅)); vm_compute; congruence.
Defined.

(** C1 as stated fails on views that come with a group id under which
    there is no intrinsic: two views with the same make, model, focal
    length and size have the same intrinsic built, and each keeps the id
    it came with, in whichever order they are processed. *)
Lemma default_mode_previous_id_counterexample :
  let cfg := config 2 false false in
  let a := withIntrinsicId 7 canonA in
  let b := withIntrinsicId 8 (image 5 "/data/e.jpg" (exif "Canon" "Canon EOS 5D" "50")) in
  metadata a = metadata b
  ∧ built cfg a = built cfg b
  ∧ intrinsicId <$> (pass cfg (initialState ∅) [a; b]).2 = [7; 8]
  ∧ intrinsicId <$> (pass cfg (initialState ∅) [b; a]).2 = [8; 7].
Proof.
  repeat split; vm_compute; congruence.
Qed.

(** ** Mode 1 (C5) *)

Lemma metadata_else_per_view_groups_by_hash_witness :
  let cfg := config 1 false false in
  intrinsicId (withIntrinsicId 1223081313 canonA)
  = toIndexT (hashValue (built cfg canonA))
  ∧ intrinsicId (withIntrinsicId 1223081313 canonA)
    = intrinsicId (withIntrinsicId 1223081313 canonB).
Proof.
  intros cfg.
  destruct (metadata_else_per_view_groups_by_hash getInfo builder hashValue rand
              cfg (initialState ∅) [canonA; canonB] 0 1 canonA canonB
              (withIntrinsicId 1223081313 canonA)
              (withIntrinsicId 1223081313 canonB))
    as (Hid & _ & _ & Hsame); try (vm_compute; reflexivity).
  split; [exact Hid|]. apply Hsame. vm_compute; reflexivity.
Defined.

(** C5 as stated fails on rig views: in mode 1, two views without
    metadata that belong to the same position of a rig get the same
    group id. *)
Lemma metadata_else_per_view_rig_counterexample :
  let cfg := configFocal 1000 1 false false in
  let a := rigImage 1 "/rig/cam0/0001.jpg" 5 0 in
  let b := rigImage 2 "/rig/cam0/0002.jpg" 5 0 in
  hasCameraMetadata a = false ∧ hasCameraMetadata b = false
  ∧ viewId a ≠ viewId b
  ∧ serialNumber (built cfg a) = "no_metadata_rig_5_0"
  ∧ intrinsicId <$> (pass cfg (initialState ∅) [a; b]).2
    = [toIndexT (hashValue (built cfg a)); toIndexT (hashValue (built cfg a))].
Proof.
  repeat split; vm_compute; congruence.
Qed.

(** With the builder of the reference instance, which gives the same
    intrinsic to images of one size, two views without metadata that are
    outside of any rig also get the same group id in mode 1, even in
    different folders. *)
Lemma metadata_else_per_view_reference_run :
  let cfg := configFocal 1000 1 false false in
  let a := image 1 "/shoot1/a.jpg" ∅ in
  let b := image 2 "/shoot2/b.jpg" ∅ in
  hasCameraMetadata a = false ∧ hasCameraMetadata b = false
  ∧ intrinsicId <$> (pass cfg (initialState ∅) [a; b]).2
    = [1581989898; 1581989898].
Proof.
  repeat split; vm_compute; reflexivity.
Qed.

(** ** Rig cameras (C7) *)

Lemma rig_views_grouped_by_position_witness :
  let a := rigImage 1 "/rig/a.jpg" 5 0 in
  let b := rigImage 2 "/rig/b.jpg" 5 1 in
  serialNumber (built (configFocal 1000 2 false false) a) = "no_metadata_rig_5_0"
  ∧ intrinsicId (withIntrinsicId 3854459236 a)
    ≠ intrinsicId (withIntrinsicId 3785301857 b)
  ∧ ∃ n, intrinsicId (withIntrinsicId (toIndexT (rand 0)) a) = toIndexT (rand n).
Proof.
  intros a b.
  destruct (rig_views_grouped_by_position getInfo builder hashValue rand
              (configFocal 1000 2 false false) (initialState ∅) [a; b] 0 1 a b
              (withIntrinsicId 3854459236 a) (withIntrinsicId 3785301857 b)
              5 0 5 1)
    as (Hsn & Hhash & _); [vm_compute; (reflexivity || congruence) ..|].
  destruct (rig_views_grouped_by_position getInfo builder hashValue rand
              (configFocal 1000 0 false false) (initialState ∅) [a; b] 0 1 a b
              (withIntrinsicId (toIndexT (rand 0)) a)
              (withIntrinsicId (toIndexT (rand 1)) b)
              5 0 5 1)
    as (_ & _ & Hrand); [vm_compute; (reflexivity || congruence) ..|].
  split; [exact Hsn|]. split.
  - apply Hhash; [vm_compute; congruence|congruence|].
    vm_compute. congruence.
  - apply Hrand. reflexivity.
Defined.

(** C7 as stated fails in mode 0: two views with the same rig id and the
    same sub-pose id get different group ids, the results of [std::rand]. *)
Lemma rig_views_per_view_mode_counterexample :
  let cfg := configFocal 1000 0 false false in
  let a := rigImage 1 "/rig/a.jpg" 5 0 in
  let b := rigImage 2 "/rig/b.jpg" 5 0 in
  rig a = rig b
  ∧ intrinsicId <$> (pass cfg (initialState ∅) [a; b]).2
    = [toIndexT (rand 0); toIndexT (rand 1)]
  ∧ toIndexT (rand 0) ≠ toIndexT (rand 1).
Proof.
  repeat split; vm_compute; congruence.
Qed.

(** ** The reserved id *)

Lemma assigned_id_reserved_iff_witness :
  intrinsicId (processView getInfo builder hashValue rand
                 (config 2 false false) (initialState ∅) canonA).2
  ≠ UndefinedIndexT.
Proof.
  intros H.
  apply (assigned_id_reserved_iff getInfo builder hashValue rand
           (config 2 false false) (initialState ∅) canonA) in H;
    try (vm_compute; (reflexivity || (split; congruence))).
  destruct H as (_ & _ & H). vm_compute in H. congruence.
Defined.

(** ** Unknown sensors (C2) *)

Lemma unknown_sensor_recorded_witness :
  let out := run (config 2 false false) [acmeX] ∅ in
  exitCode out = EXIT_FAILURE
  ∧ unknownSensors (outState out) = {[ ("Acme", "X1") := "/data/x.jpg" ]}.
Proof.
  intros out.
  destruct (unknown_sensor_recorded getInfo builder hashValue rand Save
              (config 2 false false) ∅ [] acmeX [])
    as (_ & _ & Hfail & _ & Hone).
  - vm_compute; reflexivity.
  - vm_compute; reflexivity.
  - intros (i & Hi & _). vm_compute in Hi. congruence.
  - split; [by apply Hfail | by apply Hone].
Defined.

(** C2 as stated fails on a view that already refers to an intrinsic with
    a positive focal length: its unknown make and model are not recorded,
    and the run succeeds although incomplete output is not allowed. *)
Lemma unknown_sensor_complete_view_counterexample :
  let cfg := config 2 false true in
  let v := withIntrinsicId 7 acmeX in
  let out := run cfg [v] {[ 7 := pinhole 1000 ]} in
  hasCameraMetadata v = true
  ∧ sensorKnown getInfo cfg v = false
  ∧ unknownSensors (outState out) = ∅
  ∧ exitCode out = EXIT_SUCCESS.
Proof.
  repeat split; vm_compute; reflexivity.
Qed.

(** ** The number of complete views (C3) *)

Lemma not_enough_complete_views_witness :
  exitCode (run (config 2 false false) [canonA] ∅) = EXIT_FAILURE
  ∧ exitCode (run (config 2 false true) [canonA] ∅) = EXIT_SUCCESS.
Proof.
  split.
  - apply (not_enough_complete_views getInfo builder hashValue rand Save
             (config 2 false false) [canonA] ∅); vm_compute; (reflexivity || lia).
  - apply (not_enough_complete_views getInfo builder hashValue rand Save
             (config 2 false true) [canonA] ∅); vm_compute; (reflexivity || lia).
Defined.

(** C3 as stated fails when an unknown sensor was recorded: two views are
    complete, which is the minimum, and the run fails. *)
Lemma complete_views_unknown_sensor_counterexample :
  let cfg := config 2 false false in
  let out := run cfg [canonA; canonB; acmeX] ∅ in
  allowIncompleteOutput cfg = false ∧ allowSingleView cfg = false
  ∧ completeViewCount (outState out) = 2%nat
  ∧ exitCode out = EXIT_FAILURE.
Proof.
  repeat split; vm_compute; reflexivity.
Qed.

(** ** Views without metadata (C6) *)

Lemma no_metadata_incomplete_allowed_witness :
  let out := run (config 2 true false) frames ∅ in
  exitCode out = EXIT_SUCCESS
  ∧ noMetadataImagePaths (outState out)
    = ["/video/0001.jpg"; "/video/0002.jpg"; "/video/0003.jpg"]
  ∧ intrinsics (outState out) = ∅.
Proof.
  intros out.
  destruct (no_metadata_incomplete_allowed getInfo builder hashValue rand Save
              (config 2 true false) frames ∅)
    as (Hexit & _ & _ & Hintr & Hpaths & _).
  - reflexivity.
  - discriminate.
  - repeat (apply Forall_cons_2; [split; vm_compute; reflexivity|]).
    apply Forall_nil_2.
  - reflexivity.
  - split; [exact Hexit|]. split; [exact Hpaths | exact Hintr].
Defined.

(** C6 as stated fails: with incomplete output allowed, three images
    without metadata in one folder stay unassigned and the run builds no
    intrinsic at all, so there is no group for their folder. *)
Lemma no_metadata_no_group_counterexample :
  let out := run (config 2 true false) frames ∅ in
  parent_path <$> (imagePath <$> frames) = ["/video"; "/video"; "/video"]
  ∧ intrinsicId <$> outViews out
    = [UndefinedIndexT; UndefinedIndexT; UndefinedIndexT]
  ∧ intrinsics (outState out) = ∅
  ∧ exitCode out = EXIT_SUCCESS.
Proof.
  repeat split; vm_compute; reflexivity.
Qed.

End Scenarios.

(** * More facts about the K-matrix check *)

Section KMatrixMore.

Import KMatrix.

Lemma readFields_true_inv i fields o o' :
  readFields i fields o = (true, o') →
  Forall (λ f, is_Some (read_double f)) fields.
Proof.
  revert i o. induction fields as [|f fields IH]; intros i o H; [constructor|].
  simpl in H. destruct (read_double f) as [v|] eqn:E; [|done].
  constructor; [eauto|]. by eapply IH.
Qed.

Lemma Forall_readable_values fields :
  Forall (λ f, is_Some (read_double f)) fields →
  ∃ vs, Forall2 (λ f v, read_double f = Some v) fields vs.
Proof.
  induction 1 as [|f fields [v Hv] _ [vs IH]].
  - exists []. constructor.
  - exists (v :: vs). by constructor.
Qed.

(** X1. The check accepts a string exactly when it has eight semicolons
    and each of its nine fields starts with a number. *)
Theorem checkIntrinsicStringValidity_accepts_iff K o :
  (checkIntrinsicStringValidity K o).1 = true
  ↔ count_sep (is_any_of ";") K = 8%nat
    ∧ Forall (λ f, is_Some (read_double f)) (split (is_any_of ";") K).
Proof.
  unfold checkIntrinsicStringValidity.
  pose proof (split_length (is_any_of ";") K) as Hlen.
  destruct (Nat.eqb_spec (length (split (is_any_of ";") K)) 9) as [H9|H9];
    unfold negb; cbv iota.
  - split.
    + intros H. split; [lia|].
      destruct (readFields 0 _ o) as [b o'] eqn:E. simpl in H. subst b.
      by eapply readFields_true_inv.
    + intros [_ Hall]. apply Forall_readable_values in Hall as [vs Hvs].
      by rewrite (readFields_all _ _ _ _ Hvs).
  - split; [done|]. intros [H8 _]. lia.
Qed.

Lemma readFields_stops i pre f post vs o :
  Forall2 (λ f v, read_double f = Some v) pre vs →
  read_double f = None →
  readFields i (pre ++ f :: post) o
  = (false, foldl (λ acc iv, store iv.1 iv.2 acc) o (zip (seq i (length vs)) vs)).
Proof.
  intros Hpre Hf. revert i o.
  induction Hpre as [|p v pre vs Hp _ IH]; intros i o; simpl.
  - by rewrite Hf.
  - rewrite Hp. by rewrite IH.
Qed.

(** X2. When a string of nine fields is rejected at its first field that
    does not start with a number, the outputs that belong to the fields
    before it have already been written: the focal length when field 0
    was read, the offsets when fields 2 and 5 were; the others keep the
    caller's values. *)
Theorem checkIntrinsicStringValidity_rejected_outputs K o pre f post vs :
  split (is_any_of ";") K = pre ++ f :: post →
  length (split (is_any_of ";") K) = 9%nat →
  Forall2 (λ f v, read_double f = Some v) pre vs →
  read_double f = None →
  checkIntrinsicStringValidity K o
  = (false, {| focal := default (focal o) (vs !! 0%nat);
               ppx := default (ppx o) (vs !! 2%nat);
               ppy := default (ppy o) (vs !! 5%nat) |}).
Proof.
  intros Hsplit Hlen Hpre Hf.
  rewrite checkIntrinsicStringValidity_nine by done.
  rewrite Hsplit, (readFields_stops _ _ _ _ _ _ Hpre Hf). f_equal.
  assert (length vs ≤ 8)%nat as Hvs.
  { rewrite Hsplit, length_app in Hlen. simpl in Hlen.
    apply Forall2_length in Hpre. lia. }
  destruct o as [fo px py].
  do 9 (destruct vs as [|? vs]; [reflexivity|]). simpl in Hvs. lia.
Qed.

Lemma checkIntrinsicStringValidity_rejected_outputs_witness :
  checkIntrinsicStringValidity "1200;0;960;zero;1200;540;0;0;1" unset
  = (false, {| focal := 1200; ppx := 960; ppy := -1 |}).
Proof.
  apply (checkIntrinsicStringValidity_rejected_outputs
           "1200;0;960;zero;1200;540;0;0;1" unset
           ["1200"; "0"; "960"] "zero" ["1200"; "540"; "0"; "0"; "1"]
           [1200; 0; 960]%Q).
  - vm_compute; reflexivity.
  - vm_compute; reflexivity.
  - repeat (constructor; [vm_compute; reflexivity|]). constructor.
  - vm_compute; reflexivity.
Defined.

End KMatrixMore.

(** * Facts about the listing of images *)

Section ListFilesFacts.

Import ListFiles.

Lemma FsEntry_nested_ind (P : FsEntry → Prop) :
  (∀ p, P (RegularFile p)) →
  (∀ p entries, Forall P entries → P (Directory p entries)) →
  (∀ p, P (NoFileNorDirectory p)) →
  ∀ e, P e.
Proof.
  intros Hfile Hdir Hnone. fix IH 1. intros [p|p entries|p].
  - apply Hfile.
  - apply Hdir. induction entries as [|e entries IHes]; constructor.
    + apply IH.
    + exact IHes.
  - apply Hnone.
Qed.

Lemma listFiles_listed e extensions l :
  listFiles e extensions l
  = (bool_decide (regularFiles (selected extensions) e ≠ []),
     listed extensions e l).
Proof.
  revert l. induction e as [p|p entries IH|p] using FsEntry_nested_ind; intros l.
  - simpl. unfold listed, selected, push_back, logInvalid. simpl.
    destruct (hasExtension _ _); simpl; by rewrite app_nil_r.
  - simpl.
    assert (∀ hasFile l,
      (fix loop (files : list FsEntry) (hasFile : bool) (l : Listing)
         : bool * Listing :=
         match files with
         | [] => (hasFile, l)
         | f :: files' =>
             let '(found, l') := listFiles f extensions l in
             loop files' (if found then true else hasFile) l'
         end) entries hasFile l
      = (hasFile || bool_decide (flat_map (regularFiles (selected extensions)) entries ≠ []),
         {| resources := resources l ++ flat_map (regularFiles (selected extensions)) entries;
            invalidPaths := invalidPaths l ++ flat_map (rejected (selected extensions)) entries |}))
      as Hloop.
    { induction IH as [|f files Hf _ IHfiles]; intros hasFile l'.
      - simpl. rewrite orb_false_r, !app_nil_r. by destruct l'.
      - rewrite Hf. rewrite IHfiles. unfold listed. simpl.
        f_equal; [|by rewrite !app_assoc].
        destruct (regularFiles (selected extensions) f) as [|x xs]; simpl.
        + by destruct hasFile.
        + by rewrite orb_true_r. }
    rewrite Hloop. reflexivity.
  - simpl. unfold listed, logInvalid. simpl. by rewrite app_nil_r.
Qed.

(** X3. [listFiles] appends to [resources] the regular files below its
    argument whose extension, in lower case, is in the list, in the order
    of the visit; it logs an error for every other regular file and for
    every path that is neither a file nor a directory, never for a
    directory; and it returns true exactly when it appended a path. *)
Theorem listFiles_listing e extensions l :
  resources (listFiles e extensions l).2
  = resources l ++ regularFiles (selected extensions) e
  ∧ invalidPaths (listFiles e extensions l).2
    = invalidPaths l ++ rejected (selected extensions) e
  ∧ ((listFiles e extensions l).1 = true
     ↔ resources (listFiles e extensions l).2 ≠ resources l).
Proof.
  rewrite listFiles_listed. simpl. split; [done|split; [done|]].
  rewrite bool_decide_eq_true. split.
  - intros Hne Heq. apply Hne.
    apply (f_equal length) in Heq. rewrite length_app in Heq.
    destruct (regularFiles (selected extensions) e); [done|simpl in Heq; lia].
  - intros Hne Heq. apply Hne. by rewrite Heq, app_nil_r.
Qed.

Lemma hasExtension_elem_of x extensions :
  hasExtension x extensions = true ↔ x ∈ extensions.
Proof.
  induction extensions as [|e rest IH]; simpl.
  - split; [done|]. by intros ?%elem_of_nil.
  - rewrite orb_true_iff, IH, elem_of_cons.
    by rewrite String.eqb_eq.
Qed.

Lemma elem_of_regularFiles keep e p :
  p ∈ regularFiles keep e ↔ keep p = true ∧ Below (RegularFile p) e.
Proof.
  induction e as [q|q entries IH|q] using FsEntry_nested_ind; simpl.
  - destruct (keep q) eqn:Hq.
    + rewrite list_elem_of_singleton. split.
      * intros ->. split; [done|constructor].
      * intros [_ Hb]. by inversion Hb.
    + split; [by intros ?%elem_of_nil|]. intros [Hk Hb].
      inversion Hb; subst. congruence.
  - rewrite list_elem_of_In, in_flat_map. split.
    + intros (e & He & Hp). apply list_elem_of_In in He, Hp.
      rewrite Forall_forall in IH. apply (IH _ He) in Hp as [Hk Hb].
      split; [done|]. by econstructor.
    + intros [Hk Hb]. inversion Hb as [|? ? e He Hbe]; subst.
      exists e. rewrite <- !list_elem_of_In. split; [done|].
      rewrite Forall_forall in IH. apply (IH _ He). done.
  - split; [by intros ?%elem_of_nil|]. intros [_ Hb]. inversion Hb.
Qed.

(** X4. After [listFiles], a path is in [resources] exactly when it was
    there before, or it is a regular file below the argument whose
    extension, in lower case, is one of the extensions of the list. *)
Theorem listFiles_resources e extensions l p :
  p ∈ resources (listFiles e extensions l).2
  ↔ p ∈ resources l
    ∨ (Below (RegularFile p) e
       ∧ transform_tolower (extension p) ∈ extensions).
Proof.
  rewrite listFiles_listed. simpl. rewrite elem_of_app, elem_of_regularFiles.
  unfold selected. rewrite hasExtension_elem_of. tauto.
Qed.

Lemma has_upper_transform_tolower s : has_upper (transform_tolower s) = false.
Proof.
  induction s as [|c s IH]; simpl; [done|]. rewrite IH, orb_false_r.
  unfold is_upper, tolower.
  destruct ((65 <=? N_of_ascii c) && (N_of_ascii c <=? 90))%N eqn:E; [|done].
  apply andb_true_iff in E as [H1 H2].
  apply N.leb_le in H1, H2.
  rewrite N_ascii_embedding by lia.
  apply andb_false_iff. right. apply N.leb_gt. lia.
Qed.

Lemma hasExtension_upper x extensions :
  Forall (λ e, has_upper e = true) extensions →
  hasExtension (transform_tolower x) extensions = false.
Proof.
  induction 1 as [|e rest He _ IH]; simpl; [done|].
  rewrite IH, orb_false_r. apply String.eqb_neq. intros Heq.
  rewrite <- Heq, has_upper_transform_tolower in He. done.
Qed.

(** X5. The extension of a file is put in lower case before the
    comparison, the extensions of the list are not: with a list whose
    extensions all have an upper case letter, [listFiles] appends nothing
    and returns false, whatever the folder holds. *)
Theorem listFiles_upper_case_extensions e extensions l :
  Forall (λ x, has_upper x = true) extensions →
  (listFiles e extensions l).1 = false
  ∧ resources (listFiles e extensions l).2 = resources l.
Proof.
  intros Hup. rewrite listFiles_listed. simpl.
  assert (regularFiles (selected extensions) e = []) as ->.
  { induction e as [q|q entries IH|q] using FsEntry_nested_ind; simpl; [|  |done].
    - unfold selected. by rewrite hasExtension_upper.
    - induction IH as [|f files Hf _ IHfiles]; simpl; [done|].
      by rewrite Hf, IHfiles. }
  by rewrite app_nil_r.
Qed.

Lemma listFiles_upper_case_extensions_witness :
  let folder := Directory "/data" [RegularFile "/data/a.JPG"; RegularFile "/data/b.jpg"] in
  let l := {| resources := []; invalidPaths := [] |} in
  (listFiles folder [".JPG"; ".Tif"] l).1 = false
  ∧ resources (listFiles folder [".JPG"; ".Tif"] l).2 = [].
Proof.
  intros folder l.
  apply (listFiles_upper_case_extensions folder [".JPG"; ".Tif"] l).
  repeat (constructor; [reflexivity|]). constructor.
Defined.

End ListFilesFacts.

(** * More facts about the pass *)

Section PassMore.

Variable getInfo : string → string → list Datasheet → option Datasheet.
Variable getViewIntrinsic :
  View → double → double → double → EINTRINSIC → double → double → Intrinsic.
Variable hashValue : Intrinsic → Z.
Variable rand : nat → Z.
Variable cfg : Config.

Local Abbreviation step := (processView getInfo getViewIntrinsic hashValue rand cfg).
Local Abbreviation publish := (buildAndPublish getViewIntrinsic hashValue rand cfg).
Local Abbreviation pass := (createMissingIntrinsics getInfo getViewIntrinsic hashValue rand cfg).
Local Abbreviation cand := (candidate getInfo getViewIntrinsic cfg).
Local Abbreviation builds := (reachesBuild getInfo cfg).
Local Abbreviation known := (sensorKnown getInfo cfg).
Local Abbreviation gid := (groupId hashValue rand cfg).

(** ** What an iteration leaves untouched *)

Lemma publish_intrinsics st v sw :
  intrinsics (publish st v sw).1
  = emplace (intrinsicId (publish st v sw).2)
            (builtIntrinsic getViewIntrinsic cfg v sw) (intrinsics st).
Proof.
  unfold buildAndPublish.
  destruct (dpos _); destruct (bool_decide (groupCameraModel cfg = 0)); reflexivity.
Qed.

Lemma emplace_preserves `{Countable K} {V} (k k' : K) (x y : V) (m : gmap K V) :
  m !! k' = Some y → emplace k x m !! k' = Some y.
Proof.
  intros Hk'. unfold emplace. destruct (m !! k) eqn:E; [done|].
  rewrite lookup_insert_ne; [done|]. intros ->. congruence.
Qed.

Lemma step_intrinsics_preserved st v k i :
  intrinsics st !! k = Some i → intrinsics (step st v).1 !! k = Some i.
Proof.
  intros Hk. unfold processView.
  repeat (case_match; simpl; try done);
    rewrite publish_intrinsics; by apply emplace_preserves.
Qed.

Lemma pass_intrinsics_lookup st views k i :
  intrinsics st !! k = Some i →
  intrinsics (pass st views).1 !! k = Some i.
Proof.
  revert st. induction views as [|v views IH]; intros st Hk; [done|].
  rewrite pass_cons. simpl. by apply IH, step_intrinsics_preserved.
Qed.

(** X6. The pass never removes or replaces an intrinsic: the intrinsics
    before the pass are among the intrinsics after it, under the same
    group ids. *)
Theorem pass_intrinsics_preserved st views :
  intrinsics st ⊆ intrinsics (pass st views).1.
Proof.
  apply map_subseteq_spec. intros k i. apply pass_intrinsics_lookup.
Qed.

Lemma step_view st v : (step st v).2 = setIntrinsicId (intrinsicId (step st v).2) v.
Proof.
  unfold processView.
  repeat (case_match; simpl; rewrite ?buildAndPublish_view; try done);
    by rewrite setIntrinsicId_same.
Qed.

(** X7. The pass changes nothing of a view but its group id: view id,
    image path, size, metadata and rig membership are the ones of the
    input, view by view. *)
Theorem pass_changes_only_intrinsicId st views :
  Forall2 (λ v v', v' = setIntrinsicId (intrinsicId v') v) views (pass st views).2.
Proof.
  revert st. induction views as [|v views IH]; intros st; [constructor|].
  rewrite pass_cons. simpl. constructor; [apply step_view|apply IH].
Qed.

(** ** The state of the views at the end *)

Lemma step_intrinsics_mono st v k :
  is_Some (intrinsics st !! k) → is_Some (intrinsics (step st v).1 !! k).
Proof. intros [i Hi]. exists i. by apply step_intrinsics_preserved. Qed.

Lemma pass_intrinsics_mono st views k :
  is_Some (intrinsics st !! k) → is_Some (intrinsics (pass st views).1 !! k).
Proof. intros [i Hi]. exists i. by apply pass_intrinsics_lookup. Qed.

Lemma step_unknownSensors_nonempty st v :
  unknownSensors st ≠ ∅ → unknownSensors (step st v).1 ≠ ∅.
Proof.
  intros Hne. destruct (step_unknownSensors getInfo getViewIntrinsic hashValue rand cfg st v)
    as [->| ->]; [done|].
  intros E. apply (f_equal (λ m, m !! sensorKey v)) in E.
  rewrite emplace_lookup, lookup_empty in E. done.
Qed.

Lemma pass_unknownSensors_nonempty st views :
  unknownSensors st ≠ ∅ → unknownSensors (pass st views).1 ≠ ∅.
Proof.
  revert st. induction views as [|v views IH]; intros st Hne; [done|].
  rewrite pass_cons. simpl. by apply IH, step_unknownSensors_nonempty.
Qed.

Lemma viewStatus_pass st views v' :
  viewStatus cfg st v' → viewStatus cfg (pass st views).1 v'.
Proof.
  intros [Hb|[Hu|[Hinc Hne]]].
  - left. by apply pass_intrinsics_mono.
  - by right; left.
  - right; right. split; [done|]. by apply pass_unknownSensors_nonempty.
Qed.

Lemma emplace_nonempty `{Countable K} {V} (k : K) (x : V) (m : gmap K V) :
  emplace k x m ≠ ∅.
Proof.
  intros E. apply (f_equal (λ m, m !! k)) in E.
  rewrite emplace_lookup, lookup_empty in E. done.
Qed.

Lemma step_viewStatus st v : viewStatus cfg (step st v).1 (step st v).2.
Proof.
  unfold processView, existingIntrinsic.
  destruct (bool_decide (intrinsicId v ≠ UndefinedIndexT)) eqn:Hid.
  - destruct (intrinsics st !! intrinsicId v) as [i|] eqn:Hi.
    + left. repeat (case_match; simpl); by rewrite Hi.
    + destruct (hasCameraMetadata v).
      * destruct (getInfo _ _ _).
        -- left. rewrite publish_intrinsics, emplace_lookup. eauto.
        -- destruct (allowIncompleteOutput cfg) eqn:Hinc; simpl.
           ++ left. rewrite publish_intrinsics, emplace_lookup. eauto.
           ++ right; right. split; [done|]. apply emplace_nonempty.
      * destruct (allowIncompleteOutput cfg) eqn:Hinc; simpl.
        -- by right; left.
        -- left. rewrite publish_intrinsics, emplace_lookup. eauto.
  - destruct (hasCameraMetadata v).
    + destruct (getInfo _ _ _).
      * left. rewrite publish_intrinsics, emplace_lookup. eauto.
      * destruct (allowIncompleteOutput cfg) eqn:Hinc; simpl.
        -- left. rewrite publish_intrinsics, emplace_lookup. eauto.
        -- right; right. split; [done|]. apply emplace_nonempty.
    + destruct (allowIncompleteOutput cfg) eqn:Hinc; simpl.
      * by right; left.
      * left. rewrite publish_intrinsics, emplace_lookup. eauto.
Qed.

Lemma pass_viewStatus st views :
  Forall (viewStatus cfg (pass st views).1) (pass st views).2.
Proof.
  revert st. induction views as [|v views IH]; intros st; [constructor|].
  rewrite pass_cons. simpl. constructor; [|apply IH].
  apply viewStatus_pass, step_viewStatus.
Qed.

(** ** Datasets without previous group ids *)

Local Abbreviation fresh := (λ v : View, intrinsicId v = UndefinedIndexT).
Local Abbreviation assign := (assignFresh getInfo getViewIntrinsic hashValue cfg).
Local Abbreviation counted := (countedComplete getInfo getViewIntrinsic cfg).
Local Abbreviation unknownView := (unknownSensorView getInfo cfg).

Lemma publish_noMetadata st v sw :
  noMetadataImagePaths (publish st v sw).1 = noMetadataImagePaths st.
Proof.
  unfold buildAndPublish.
  destruct (dpos _); destruct (bool_decide (groupCameraModel cfg = 0)); reflexivity.
Qed.

Lemma publish_count st v sw :
  completeViewCount (publish st v sw).1
  = ((if dpos (initialFocalLengthPix (builtIntrinsic getViewIntrinsic cfg v sw))
      then 1%nat else 0%nat) + completeViewCount st)%nat.
Proof.
  unfold buildAndPublish.
  destruct (dpos _); destruct (bool_decide (groupCameraModel cfg = 0)); reflexivity.
Qed.

Lemma publish_randCalls st v sw :
  randCalls (publish st v sw).1
  = ((if bool_decide (groupCameraModel cfg = 0%Z) then 1%nat else 0%nat)
     + randCalls st)%nat.
Proof.
  unfold buildAndPublish.
  destruct (dpos _); destruct (bool_decide (groupCameraModel cfg = 0)); reflexivity.
Qed.

Lemma step_fresh_view st v :
  groupCameraModel cfg ≠ 0 → fresh v → (step st v).2 = assign v.
Proof.
  intros Hm Hid. unfold assignFresh.
  destruct (builds v) eqn:Hb.
  - rewrite processView_reaches by auto using existingIntrinsic_unassigned.
    by rewrite gid_hash.
  - unfold processView. rewrite existingIntrinsic_unassigned by done.
    unfold reachesBuild, sensorKnown in Hb.
    destruct (hasCameraMetadata v).
    + destruct (getInfo _ _ _); [by rewrite bool_decide_eq_true_2 in Hb|].
      simpl in Hb. by rewrite Hb.
    + destruct (allowIncompleteOutput cfg); [|done]. simpl.
      rewrite <- Hid at 1. apply setIntrinsicId_same.
Qed.

(** X9. Outside of mode 0, on views that come without a group id, the
    result of the pass for a view depends on that view alone, not on the
    state nor on the views around it: the views leave the pass as
    [assignFresh] makes them, so a pass over the same views in another
    order gives the same views in that order. *)
Theorem fresh_pass_is_order_independent st st' views views' :
  groupCameraModel cfg ≠ 0 → Forall fresh views → views ≡ₚ views' →
  (pass st views).2 = assign <$> views
  ∧ (pass st views).2 ≡ₚ (pass st' views').2.
Proof.
  intros Hm Hfresh Hperm.
  assert (∀ s l, Forall fresh l → (pass s l).2 = assign <$> l) as Hmap.
  { intros s l Hl. revert s. induction Hl as [|v l Hv _ IH]; intros s; [done|].
    rewrite pass_cons. simpl. rewrite IH. f_equal. by apply step_fresh_view. }
  split; [by apply Hmap|].
  rewrite !Hmap by (by rewrite <- ?Hperm). by rewrite Hperm.
Qed.

Lemma step_fresh_state st v :
  fresh v →
  noMetadataImagePaths (step st v).1
  = noMetadataImagePaths st ++ (if hasCameraMetadata v then [] else [imagePath v])
  ∧ unknownSensors (step st v).1
    = (if unknownView v
       then emplace (sensorKey v) (imagePath v) (unknownSensors st)
       else unknownSensors st)
  ∧ completeViewCount (step st v).1
    = ((if counted v then 1%nat else 0%nat) + completeViewCount st)%nat.
Proof.
  intros Hid. unfold processView. rewrite existingIntrinsic_unassigned by done.
  unfold unknownSensorView, countedComplete, reachesBuild, candidate,
    sensorWidthOf, sensorKnown.
  destruct (hasCameraMetadata v); simpl.
  - destruct (getInfo _ _ _) as [d|]; simpl.
    + rewrite ?bool_decide_eq_true_2 by eauto. simpl.
      rewrite publish_noMetadata, buildAndPublish_unknownSensors, publish_count.
      by rewrite app_nil_r.
    + rewrite ?bool_decide_eq_false_2 by (by intros [? ?]). simpl.
      destruct (allowIncompleteOutput cfg); simpl.
      * rewrite publish_noMetadata, buildAndPublish_unknownSensors, publish_count.
        by rewrite app_nil_r.
      * by rewrite app_nil_r.
  - destruct (allowIncompleteOutput cfg); simpl; [done|].
    by rewrite publish_noMetadata, buildAndPublish_unknownSensors, publish_count.
Qed.

(** The record of the images without metadata when the iterations run in
    the order of the list. *)
Lemma pass_noMetadataImagePaths_in_order st views :
  Forall fresh views →
  noMetadataImagePaths (pass st views).1
  = noMetadataImagePaths st
    ++ (imagePath <$> filter (λ v, hasCameraMetadata v = false) views).
Proof.
  intros Hfresh. revert st.
  induction Hfresh as [|v views Hv _ IH]; intros st.
  - by rewrite app_nil_r.
  - rewrite pass_cons. simpl. rewrite IH.
    destruct (step_fresh_state st v Hv) as (-> & _ & _).
    rewrite filter_cons. case_decide as Hd; rewrite Hd || (destruct (hasCameraMetadata v); [|done]).
    + simpl. by rewrite <- app_assoc.
    + by rewrite app_nil_r.
Qed.

(** X10. On views that come without a group id, in whatever order the
    iterations run, the pass keeps the paths that were already recorded
    as lacking metadata and adds, once per view, the image paths of
    exactly the views that have no make or no model. *)
Theorem fresh_pass_noMetadataImagePaths st views order :
  Forall fresh views → order ≡ₚ views →
  ∃ added,
    noMetadataImagePaths (pass st order).1 = noMetadataImagePaths st ++ added
    ∧ added ≡ₚ imagePath <$> filter (λ v, hasCameraMetadata v = false) views.
Proof.
  intros Hfresh Horder.
  exists (imagePath <$> filter (λ v, hasCameraMetadata v = false) order).
  split; [|by rewrite Horder].
  apply pass_noMetadataImagePaths_in_order. by rewrite Horder.
Qed.

(** X11. On views that come without a group id, the pass counts as
    complete exactly the views for which an intrinsic is built with a
    positive initial focal length. *)
Theorem fresh_pass_completeViewCount st views :
  Forall fresh views →
  completeViewCount (pass st views).1
  = (completeViewCount st + length (filter (λ v, counted v = true) views))%nat.
Proof.
  intros Hfresh. revert st.
  induction Hfresh as [|v views Hv _ IH]; intros st.
  - simpl. lia.
  - rewrite pass_cons. simpl. rewrite IH.
    destruct (step_fresh_state st v Hv) as (_ & _ & ->).
    rewrite filter_cons. case_decide as Hd; rewrite Hd || (destruct (counted v); [done|]).
    + simpl. lia.
    + lia.
Qed.

Lemma emplace_lookup_ne `{Countable K} {V} (k k' : K) (x : V) (m : gmap K V) :
  k ≠ k' → emplace k x m !! k' = m !! k'.
Proof.
  intros Hne. unfold emplace. destruct (m !! k); [done|].
  by rewrite lookup_insert_ne.
Qed.

(** The first element of a list that has a property is an element of
    every rearrangement of the list, and there is one exactly when some
    element has the property. *)
Lemma head_filter_elem_of {A B} (P : A → Prop) `{!∀ x, Decision (P x)}
    (f : A → B) (l l' : list A) :
  l ≡ₚ l' →
  (is_Some (f <$> head (filter P l)) ↔ ∃ x, x ∈ l' ∧ P x)
  ∧ (∀ y, f <$> head (filter P l) = Some y → ∃ x, x ∈ l' ∧ P x ∧ f x = y).
Proof.
  intros Hperm. split.
  - rewrite fmap_is_Some, head_is_Some. split.
    + intros Hne. destruct (filter P l) as [|x rest] eqn:E; [done|].
      assert (x ∈ filter P l) as Hin by (rewrite E; left).
      apply list_elem_of_filter in Hin as [HP Hin].
      exists x. by rewrite <- Hperm.
    + intros (x & Hin & HP) Hnil. rewrite <- Hperm in Hin.
      by apply (filter_nil_not_elem_of P l x).
  - intros y Hy. apply fmap_Some in Hy as (x & Hx & ->).
    apply head_Some_elem_of, list_elem_of_filter in Hx as [HP Hin].
    exists x. by rewrite <- Hperm.
Qed.

(** The record of the unknown sensors when the iterations run in the
    order of the list. *)
Lemma pass_unknownSensors_in_order st views k :
  Forall fresh views →
  unknownSensors (pass st views).1 !! k
  = match unknownSensors st !! k with
    | Some p => Some p
    | None =>
        imagePath
          <$> head (filter (λ v, unknownView v = true ∧ sensorKey v = k) views)
    end.
Proof.
  intros Hfresh. revert st.
  induction Hfresh as [|v views Hv _ IH]; intros st.
  - simpl. by destruct (unknownSensors st !! k).
  - rewrite pass_cons. simpl. rewrite IH.
    destruct (step_fresh_state st v Hv) as (_ & -> & _).
    rewrite filter_cons. case_decide as Hd.
    + destruct Hd as [-> <-]. rewrite emplace_lookup. simpl.
      by destruct (unknownSensors st !! sensorKey v).
    + destruct (unknownView v) eqn:Hu; [|done].
      rewrite emplace_lookup_ne; [done|]. intros Heq. by apply Hd.
Qed.

(** X12. On views that come without a group id, in whatever order the
    iterations run: an entry of the record of unknown sensors stays as it
    was; a make and model is in the record after the pass exactly when it
    was there before or some view has it in its metadata and the database
    does not know it; and a new entry holds the image path of one of
    these views. *)
Theorem fresh_pass_unknownSensors st views order k :
  Forall fresh views → order ≡ₚ views →
  (∀ p, unknownSensors st !! k = Some p →
        unknownSensors (pass st order).1 !! k = Some p)
  ∧ (is_Some (unknownSensors (pass st order).1 !! k)
     ↔ is_Some (unknownSensors st !! k)
       ∨ ∃ v, v ∈ views ∧ unknownView v = true ∧ sensorKey v = k)
  ∧ (∀ p, unknownSensors (pass st order).1 !! k = Some p →
          unknownSensors st !! k = Some p
          ∨ ∃ v, v ∈ views ∧ unknownView v = true ∧ sensorKey v = k
                 ∧ imagePath v = p).
Proof.
  intros Hfresh Horder.
  rewrite pass_unknownSensors_in_order by (by rewrite Horder).
  destruct (head_filter_elem_of
              (λ v, unknownView v = true ∧ sensorKey v = k) imagePath
              order views Horder) as [Hsome Hfrom].
  destruct (unknownSensors st !! k) as [p0|].
  - split; [done|]. split; [|by left].
    split; [by left|by eexists].
  - split; [done|]. split.
    + rewrite Hsome. split.
      * intros (v & Hin & Hu & Hk). right. by exists v.
      * intros [[? [=]]|(v & Hin & Hu & Hk)]. by exists v.
    + intros p Hp. right. destruct (Hfrom p Hp) as (v & Hin & [Hu Hk] & Hpath).
      by exists v.
Qed.

(** The ids of mode 0 when the iterations run in the order of the list. *)
Lemma pass_rand_ids_in_order st views :
  groupCameraModel cfg = 0 →
  Forall (λ v, fresh v ∧ builds v = true) views →
  intrinsicId <$> (pass st views).2
  = (λ n, toIndexT (rand n)) <$> seq (randCalls st) (length views)
  ∧ randCalls (pass st views).1 = (randCalls st + length views)%nat.
Proof.
  intros Hm Hall. revert st.
  induction Hall as [|v views [Hv Hb] _ IH]; intros st.
  - simpl. split; [done|lia].
  - rewrite pass_cons. cbn [fst snd length seq]. rewrite !fmap_cons.
    destruct (IH (step st v).1) as [-> ->].
    assert (randCalls (step st v).1 = S (randCalls st)) as ->.
    { unfold processView. rewrite existingIntrinsic_unassigned by done.
      unfold reachesBuild, sensorKnown in Hb.
      destruct (hasCameraMetadata v).
      - destruct (getInfo _ _ _).
        + rewrite publish_randCalls. by rewrite bool_decide_eq_true_2.
        + simpl in Hb. rewrite Hb. simpl.
          rewrite publish_randCalls. by rewrite bool_decide_eq_true_2.
      - destruct (allowIncompleteOutput cfg); [done|]. simpl.
        rewrite publish_randCalls. by rewrite bool_decide_eq_true_2. }
    rewrite processView_reaches by auto using existingIntrinsic_unassigned.
    simpl. unfold groupId. rewrite bool_decide_eq_true_2 by done.
    split; [done|lia].
Qed.

(** X13. In mode 0, on views that come without a group id and for which
    an intrinsic is built, in whatever order the iterations run:
    [std::rand] is called once per view, and the group ids of the views
    are, taken together, the results of these calls, whatever the views
    are. *)
Theorem per_view_mode_ids st views order :
  groupCameraModel cfg = 0 →
  Forall (λ v, fresh v ∧ builds v = true) views → order ≡ₚ views →
  intrinsicId <$> (pass st order).2
  ≡ₚ (λ n, toIndexT (rand n)) <$> seq (randCalls st) (length views)
  ∧ randCalls (pass st order).1 = (randCalls st + length views)%nat.
Proof.
  intros Hm Hall Horder.
  destruct (pass_rand_ids_in_order st order Hm) as [-> ->];
    [by rewrite Horder|].
  by rewrite Horder.
Qed.

(** X14. In the default mode, a view without metadata, outside of any rig
    and without a previous group id gets the folder of its image as the
    serial number of its intrinsic: two such views of one folder whose
    intrinsics are built alike, serial number apart, get the same group
    id. *)
Theorem default_mode_groups_by_folder st views j1 j2 v1 v2 v1' v2' :
  groupCameraModel cfg = 2 → allowIncompleteOutput cfg = false →
  views !! j1 = Some v1 → views !! j2 = Some v2 →
  (pass st views).2 !! j1 = Some v1' → (pass st views).2 !! j2 = Some v2' →
  fresh v1 → fresh v2 →
  hasCameraMetadata v1 = false → hasCameraMetadata v2 = false →
  isPartOfRig v1 = false → isPartOfRig v2 = false →
  serialNumber (cand v1) = parent_path (imagePath v1)
  ∧ (parent_path (imagePath v1) = parent_path (imagePath v2) →
     setSerialNumber "" (builtWithoutSensor getViewIntrinsic cfg v1)
     = setSerialNumber "" (builtWithoutSensor getViewIntrinsic cfg v2) →
     intrinsicId v1' = intrinsicId v2').
Proof.
  intros Hm Hinc Hj1 Hj2 Ho1 Ho2 Hid1 Hid2 Hmeta1 Hmeta2 Hrig1 Hrig2.
  assert (groupCameraModel cfg ≠ 0) as Hm0 by (rewrite Hm; lia).
  assert (∀ v, hasCameraMetadata v = false → isPartOfRig v = false →
            cand v = setSerialNumber (parent_path (imagePath v))
                       (builtWithoutSensor getViewIntrinsic cfg v)) as Hcand.
  { intros v Hmeta Hrig.
    unfold candidate, sensorWidthOf, builtIntrinsic, overrideSerialNumber.
    rewrite Hmeta, Hrig, Hm. by rewrite bool_decide_eq_true_2. }
  rewrite (unassigned_view_id _ _ _ _ _ _ _ _ _ Hm0 Hj1 Hid1
             (builds_no_metadata _ _ _ Hmeta1 Hinc)) in Ho1.
  rewrite (unassigned_view_id _ _ _ _ _ _ _ _ _ Hm0 Hj2 Hid2
             (builds_no_metadata _ _ _ Hmeta2 Hinc)) in Ho2.
  injection Ho1 as <-. injection Ho2 as <-. simpl.
  rewrite !Hcand by done. split; [done|].
  intros Hfolder Hsame. rewrite Hfolder. do 2 f_equal.
  apply (f_equal (setSerialNumber (parent_path (imagePath v2)))) in Hsame.
  exact Hsame.
Qed.

(** The intrinsics when the iterations run in the order of the list. *)
Lemma pass_intrinsics_in_order st views k :
  groupCameraModel cfg ≠ 0 → Forall fresh views →
  intrinsics (pass st views).1 !! k
  = match intrinsics st !! k with
    | Some i => Some i
    | None =>
        cand <$> head (filter (λ v, builds v = true
                                    ∧ toIndexT (hashValue (cand v)) = k) views)
    end.
Proof.
  intros Hm Hfresh. revert st.
  induction Hfresh as [|v views Hv _ IH]; intros st.
  - simpl. by destruct (intrinsics st !! k).
  - rewrite pass_cons. simpl. rewrite IH. rewrite filter_cons.
    assert (intrinsics (step st v).1
            = if builds v
              then emplace (toIndexT (hashValue (cand v))) (cand v) (intrinsics st)
              else intrinsics st) as ->.
    { unfold processView. rewrite existingIntrinsic_unassigned by done.
      unfold reachesBuild, candidate, sensorWidthOf, sensorKnown.
      destruct (hasCameraMetadata v).
      - destruct (getInfo _ _ _) as [d|]; simpl.
        + rewrite ?bool_decide_eq_true_2 by eauto. simpl.
          rewrite publish_intrinsics, buildAndPublish_view. simpl.
          by rewrite gid_hash.
        + rewrite ?bool_decide_eq_false_2 by (by intros [? ?]). simpl.
          destruct (allowIncompleteOutput cfg); simpl; [|done].
          rewrite publish_intrinsics, buildAndPublish_view. simpl.
          by rewrite gid_hash.
      - destruct (allowIncompleteOutput cfg); simpl; [done|].
        rewrite publish_intrinsics, buildAndPublish_view. simpl.
        by rewrite gid_hash. }
    case_decide as Hd.
    + destruct Hd as [-> <-]. rewrite emplace_lookup. simpl.
      by destruct (intrinsics st !! _).
    + destruct (builds v) eqn:Hb; [|done].
      rewrite emplace_lookup_ne; [done|]. intros Heq. by apply Hd.
Qed.

(** X20. Outside of mode 0, on views that come without a group id, in
    whatever order the iterations run: a group id is bound after the pass
    exactly when it was bound before or is the hash, cut to the width of
    an id, of the intrinsic built for some view; and the intrinsic found
    under a group id that was not bound before is the intrinsic built for
    one of the views that got this id. *)
Theorem fresh_pass_intrinsics st views order k :
  groupCameraModel cfg ≠ 0 → Forall fresh views → order ≡ₚ views →
  (is_Some (intrinsics (pass st order).1 !! k)
   ↔ is_Some (intrinsics st !! k)
     ∨ ∃ v, v ∈ views ∧ builds v = true ∧ toIndexT (hashValue (cand v)) = k)
  ∧ (∀ i, intrinsics (pass st order).1 !! k = Some i →
          intrinsics st !! k = Some i
          ∨ ∃ v, v ∈ views ∧ builds v = true
                 ∧ toIndexT (hashValue (cand v)) = k ∧ cand v = i).
Proof.
  intros Hm Hfresh Horder.
  rewrite pass_intrinsics_in_order by (done || by rewrite Horder).
  destruct (head_filter_elem_of
              (λ v, builds v = true ∧ toIndexT (hashValue (cand v)) = k) cand
              order views Horder) as [Hsome Hfrom].
  destruct (intrinsics st !! k) as [i0|].
  - split; [|by left]. split; [by left|by eexists].
  - split.
    + rewrite Hsome. split.
      * intros (v & Hin & Hb & Hk). right. by exists v.
      * intros [[? [=]]|(v & Hin & Hb & Hk)]. by exists v.
    + intros i Hi. right. destruct (Hfrom i Hi) as (v & Hin & [Hb Hk] & Hcand).
      by exists v.
Qed.

(** ** Views that already refer to an intrinsic *)

Lemma existingIntrinsic_ext st st' v :
  intrinsics st = intrinsics st' → existingIntrinsic st v = existingIntrinsic st' v.
Proof. intros H. unfold existingIntrinsic. by rewrite H. Qed.

Lemma step_existing st v :
  is_Some (existingIntrinsic st v) →
  (step st v).2 = v
  ∧ intrinsics (step st v).1 = intrinsics st
  ∧ noMetadataImagePaths (step st v).1 = noMetadataImagePaths st
  ∧ completeViewCount (step st v).1
    = ((if existingPositive st v then 1%nat else 0%nat) + completeViewCount st)%nat.
Proof.
  intros [i Hi]. unfold processView, existingPositive. rewrite Hi.
  repeat (case_match; simpl); done.
Qed.

(** X21. On views that all refer to an existing intrinsic, whatever its
    focal length, the pass changes no view and no intrinsic, records no
    image as lacking metadata, and counts as complete the views whose
    intrinsic has a positive initial focal length: a view that refers to
    an intrinsic without focal length is never given another one. *)
Theorem assigned_pass_is_identity st views :
  Forall (λ v, is_Some (existingIntrinsic st v)) views →
  (pass st views).2 = views
  ∧ intrinsics (pass st views).1 = intrinsics st
  ∧ noMetadataImagePaths (pass st views).1 = noMetadataImagePaths st
  ∧ completeViewCount (pass st views).1
    = (completeViewCount st
       + length (filter (λ v, existingPositive st v = true) views))%nat.
Proof.
  intros Hall. revert st Hall.
  induction views as [|v views IH]; intros st Hall.
  - simpl. repeat split; lia.
  - inversion Hall as [|? ? Hv Hrest]; subst.
    destruct (step_existing st v Hv) as (Hview & Hintr & Hmeta & Hcount).
    assert (∀ w, existingIntrinsic (step st v).1 w = existingIntrinsic st w)
      as Hext by (intros w; by apply existingIntrinsic_ext).
    destruct (IH (step st v).1) as (IHv & IHi & IHm & IHc).
    { eapply Forall_impl; [exact Hrest|]. intros w. by rewrite Hext. }
    rewrite pass_cons. simpl. rewrite IHv, IHi, IHm, IHc, Hview, Hintr, Hmeta, Hcount.
    repeat split; try done.
    rewrite filter_cons.
    assert (filter (λ w, existingPositive (step st v).1 w = true) views
            = filter (λ w, existingPositive st w = true) views) as ->.
    { apply list_filter_iff. intros w. unfold existingPositive. by rewrite Hext. }
    case_decide as Hd; [rewrite Hd; simpl; lia|].
    destruct (existingPositive st v); [done|]. lia.
Qed.

(** ** A second pass *)

Local Abbreviation stays := (settled getInfo getViewIntrinsic hashValue rand cfg).

Lemma settled_existing st w : is_Some (existingIntrinsic st w) → stays st w.
Proof. intros H. destruct (step_existing st w H) as (? & ? & _). by split. Qed.

Lemma settled_bound st w :
  intrinsicId w ≠ UndefinedIndexT → is_Some (intrinsics st !! intrinsicId w) →
  stays st w.
Proof.
  intros Hid Hb. apply settled_existing. unfold existingIntrinsic.
  by rewrite bool_decide_eq_true_2.
Qed.

Lemma emplace_bound `{Countable K} {V} (k : K) (x : V) (m : gmap K V) :
  is_Some (m !! k) → emplace k x m = m.
Proof. intros [y Hy]. unfold emplace. by rewrite Hy. Qed.

Lemma settled_published st v sw st2 :
  (groupCameraModel cfg = 0 → (0 ≤ rand (randCalls st) ≤ INT_MAX)%Z) →
  intrinsics (publish st v sw).1 ⊆ intrinsics st2 →
  (∀ s, existingIntrinsic s v = None →
        ∃ s', intrinsics s' = intrinsics s ∧ step s v = publish s' v sw) →
  stays st2 (publish st v sw).2.
Proof.
  intros Hrand Hsub Hbranch.
  assert (is_Some (intrinsics st2 !! intrinsicId (publish st v sw).2)) as Hb.
  { pose proof (publish_intrinsics st v sw) as Hp.
    assert (is_Some (intrinsics (publish st v sw).1
                       !! intrinsicId (publish st v sw).2)) as [i Hi]
      by (rewrite Hp, emplace_lookup; eauto).
    exists i. by eapply lookup_weaken. }
  destruct (decide (intrinsicId (publish st v sw).2 = UndefinedIndexT)) as [Hu|Hu];
    [|by apply settled_bound].
  rewrite buildAndPublish_view in Hu, Hb |- *. simpl in Hu, Hb.
  unfold groupId in Hu.
  destruct (bool_decide_reflect (groupCameraModel cfg = 0)) as [Hm|Hm].
  { by apply toIndexT_rand in Hu; [|apply Hrand]. }
  destruct (bool_decide_reflect (intrinsicId v = UndefinedIndexT)) as [Hid|Hid];
    [|done].
  assert (gid st v (builtIntrinsic getViewIntrinsic cfg v sw) = UndefinedIndexT)
    as Hg by (unfold groupId; by rewrite bool_decide_eq_false_2, bool_decide_eq_true_2).
  rewrite Hg in Hb |- *. rewrite <- Hid at 1. rewrite setIntrinsicId_same.
  assert (existingIntrinsic st2 v = None) as Hnone
    by (by apply existingIntrinsic_unassigned).
  unfold settled. destruct (Hbranch st2 Hnone) as (s' & Hs' & ->).
  split.
  - rewrite buildAndPublish_view.
    assert (gid s' v (builtIntrinsic getViewIntrinsic cfg v sw) = UndefinedIndexT)
      as -> by (unfold groupId; by rewrite bool_decide_eq_false_2, bool_decide_eq_true_2).
    rewrite <- Hid at 1. apply setIntrinsicId_same.
  - rewrite publish_intrinsics, buildAndPublish_view. simpl.
    assert (gid s' v (builtIntrinsic getViewIntrinsic cfg v sw) = UndefinedIndexT)
      as -> by (unfold groupId; by rewrite bool_decide_eq_false_2, bool_decide_eq_true_2).
    rewrite Hs'. by apply emplace_bound.
Qed.

Lemma step_twice st1 v st2 :
  (groupCameraModel cfg = 0 → (0 ≤ rand (randCalls st1) ≤ INT_MAX)%Z) →
  intrinsics (step st1 v).1 ⊆ intrinsics st2 →
  stays st2 (step st1 v).2.
Proof.
  intros Hrand. unfold processView at 1 2.
  destruct (existingIntrinsic st1 v) as [i|] eqn:Hex.
  - intros Hsub. assert (stays st2 v) as Hv.
    { unfold existingIntrinsic in Hex.
      destruct (bool_decide_reflect (intrinsicId v ≠ UndefinedIndexT)); [|done].
      apply settled_bound; [done|]. exists i.
      eapply lookup_weaken; [exact Hex|].
      by repeat (case_match; simpl in * ). }
    by repeat (case_match; simpl).
  - destruct (hasCameraMetadata v) eqn:Hmeta.
    + destruct (getInfo _ _ _) as [d|] eqn:Hinfo.
      * intros Hsub. apply settled_published; [done..|].
        intros s Hs. exists s. split; [done|].
        unfold processView. by rewrite Hs, Hmeta, Hinfo.
      * destruct (allowIncompleteOutput cfg) eqn:Hinc; simpl.
        -- intros Hsub. apply settled_published; [done..|].
           intros s Hs. exists (recordUnknownSensor v s). split; [done|].
           unfold processView. by rewrite Hs, Hmeta, Hinfo, Hinc.
        -- intros _. destruct (existingIntrinsic st2 v) as [j|] eqn:Hex2.
           ++ apply settled_existing. by rewrite Hex2.
           ++ unfold settled, processView. by rewrite Hex2, Hmeta, Hinfo, Hinc.
    + destruct (allowIncompleteOutput cfg) eqn:Hinc; simpl.
      * intros _. unfold settled, processView.
        rewrite existingIntrinsic_unassigned by done.
        change (hasCameraMetadata (setIntrinsicId UndefinedIndexT v))
          with (hasCameraMetadata v).
        by rewrite Hmeta, Hinc.
      * intros Hsub. apply settled_published; [done..|].
        intros s Hs. exists (recordNoMetadata v s). split; [done|].
        unfold processView. by rewrite Hs, Hmeta, Hinc.
Qed.

(** X22. A second pass changes nothing: when the pass is run again on the
    views that a first pass returned, from a state that holds at least
    the intrinsics of the first pass, every view and every intrinsic
    stays as it is.  (In mode 0 this relies on [std::rand] returning
    values between [0] and [INT_MAX].) *)
Theorem second_pass_is_identity st1 views st2 :
  (groupCameraModel cfg = 0 → ∀ n, (0 ≤ rand n ≤ INT_MAX)%Z) →
  intrinsics (pass st1 views).1 ⊆ intrinsics st2 →
  (pass st2 (pass st1 views).2).2 = (pass st1 views).2
  ∧ intrinsics (pass st2 (pass st1 views).2).1 = intrinsics st2.
Proof.
  intros Hrand. revert st1 st2.
  induction views as [|v views IH]; intros st1 st2 Hsub; [done|].
  rewrite pass_cons in Hsub |- *. cbn [fst snd] in *.
  rewrite pass_cons. cbn [fst snd].
  destruct (step_twice st1 v st2) as [Hview Hintr].
  { intros Hm. by apply Hrand. }
  { etrans; [|exact Hsub]. apply map_subseteq_spec. intros k i.
    apply pass_intrinsics_lookup. }
  destruct (IH (step st1 v).1 (step st2 (step st1 v).2).1) as [IHv IHi].
  { by rewrite Hintr. }
  rewrite Hview, IHv, IHi, Hintr. done.
Qed.

End PassMore.

(** * More facts about the end of the run *)

Section RunMore.

Variable getInfo : string → string → list Datasheet → option Datasheet.
Variable getViewIntrinsic :
  View → double → double → double → EINTRINSIC → double → double → Intrinsic.
Variable hashValue : Intrinsic → Z.
Variable rand : nat → Z.
Variable Save : list View → gmap Z Intrinsic → bool.
Variable cfg : Config.

Local Abbreviation pass := (createMissingIntrinsics getInfo getViewIntrinsic hashValue rand cfg).
Local Abbreviation run := (cameraInit getInfo getViewIntrinsic hashValue rand Save cfg).

Lemma run_success_inv views kn :
  exitCode (run views kn) = EXIT_SUCCESS →
  views ≠ []
  ∧ (allowIncompleteOutput cfg = false →
     unknownSensors (outState (run views kn)) = ∅)
  ∧ Save (outViews (run views kn)) (intrinsics (outState (run views kn))) = true.
Proof.
  unfold cameraInit.
  destruct (bool_decide_reflect (views = [])) as [->|Hne]; [done|].
  destruct (pass (initialState kn) views) as [st views'].
  destruct (allowIncompleteOutput cfg) eqn:Hinc;
    destruct (bool_decide_reflect (unknownSensors st = ∅)) as [Hl|Hl]; simpl;
    destruct (notEnoughViews cfg st); simpl; try done;
    destruct (Save views' (intrinsics st)) eqn:HS; simpl; try done;
    intros _; repeat split; done.
Qed.

(** X8. After a run over a non-empty set of views, every view is in one
    of three states: its group id is bound to an intrinsic; or incomplete
    output is allowed and the view is unassigned; or incomplete output is
    not allowed and an unknown sensor was recorded.  After a successful
    run the last state is excluded: only the views left unassigned
    because incomplete output is allowed have no intrinsic. *)
Theorem run_view_status views kn :
  views ≠ [] →
  Forall (viewStatus cfg (outState (run views kn))) (outViews (run views kn))
  ∧ (exitCode (run views kn) = EXIT_SUCCESS →
     Forall (λ v', is_Some (intrinsics (outState (run views kn)) !! intrinsicId v')
                   ∨ (allowIncompleteOutput cfg = true
                      ∧ intrinsicId v' = UndefinedIndexT))
            (outViews (run views kn))).
Proof.
  intros Hne.
  destruct (run_state getInfo getViewIntrinsic hashValue rand Save cfg views kn Hne)
    as [Hst Hviews].
  assert (Forall (viewStatus cfg (outState (run views kn))) (outViews (run views kn)))
    as Hall by (rewrite Hst, Hviews; apply pass_viewStatus).
  split; [done|]. intros Hok.
  destruct (run_success_inv _ _ Hok) as (_ & Hledger & _).
  eapply Forall_impl; [exact Hall|]. intros v' [Hb|[Hu|[Hinc Hl]]]; [by left|by right|].
  by destruct Hl; apply Hledger.
Qed.

End RunMore.

(** * Facts about [main] before the pass *)

Section MainFacts.

Variable fs_exists fs_is_directory fs_is_regular_file fs_create_directory : string → bool.
Variable fs_entry : string → ListFiles.FsEntry.
Variable parseDatabase : string → option (list Datasheet).
Variable EINTRINSIC_stringToEnum : string → EINTRINSIC.
Variable loadJSON : string → gmap Z View * gmap Z Intrinsic.
Variable updateIncompleteView : View → View.
Variable getInfo : string → string → list Datasheet → option Datasheet.
Variable getViewIntrinsic :
  View → double → double → double → EINTRINSIC → double → double → Intrinsic.
Variable hashValue : Intrinsic → Z.
Variable rand : nat → Z.
Variable Save : list View → gmap Z Intrinsic → bool.

Local Abbreviation conf :=
  (configure fs_exists fs_is_directory fs_is_regular_file fs_create_directory
     parseDatabase EINTRINSIC_stringToEnum).
Local Abbreviation viewOf := (viewOfImage updateIncompleteView).
Local Abbreviation viewsOf := (viewsOfImages updateIncompleteView).
Local Abbreviation program :=
  (main fs_exists fs_is_directory fs_is_regular_file fs_create_directory fs_entry
     parseDatabase EINTRINSIC_stringToEnum loadJSON updateIncompleteView
     getInfo getViewIntrinsic hashValue rand Save).

Lemma nonempty_true s : nonempty s = true ↔ s ≠ "".
Proof. by destruct s. Qed.

Lemma nonempty_false s : nonempty s = false ↔ s = "".
Proof. by destruct s. Qed.

(** X15. When the checks of [main] let a command line through, exactly
    one of the image folder and the SfMData file is given, the output
    path is not empty, and no two of the K matrix, the default focal
    length and the default field of view are given together. *)
Theorem configure_exclusive_options o cfg :
  conf o = inr cfg →
  (CommandLine.imageFolder o = "" ↔ CommandLine.sfmFilePath o ≠ "")
  ∧ CommandLine.outputFilePath o ≠ ""
  ∧ ¬ (CommandLine.defaultIntrinsicKMatrix o ≠ ""
       ∧ dpos (CommandLine.defaultFocalLengthPixel o) = true)
  ∧ ¬ (CommandLine.defaultIntrinsicKMatrix o ≠ ""
       ∧ dpos (CommandLine.defaultFieldOfView o) = true)
  ∧ ¬ (dpos (CommandLine.defaultFocalLengthPixel o) = true
       ∧ dpos (CommandLine.defaultFieldOfView o) = true).
Proof.
  unfold configure. rewrite <- !nonempty_true, <- nonempty_false.
  destruct (nonempty (CommandLine.imageFolder o)),
    (nonempty (CommandLine.sfmFilePath o)),
    (nonempty (CommandLine.outputFilePath o)),
    (nonempty (CommandLine.defaultIntrinsicKMatrix o)),
    (dpos (CommandLine.defaultFocalLengthPixel o)),
    (dpos (CommandLine.defaultFieldOfView o));
    simpl; intros H; repeat (case_match; try discriminate);
    intuition congruence.
Qed.

Lemma checkIntrinsicStringValidity_true_inv K o o' :
  KMatrix.checkIntrinsicStringValidity K o = (true, o') →
  ∃ vs, Forall2 (λ f v, KMatrix.read_double f = Some v)
                (KMatrix.split (KMatrix.is_any_of ";") K) vs
        ∧ length vs = 9%nat
        ∧ vs !! 0%nat = Some (KMatrix.focal o')
        ∧ vs !! 2%nat = Some (KMatrix.ppx o')
        ∧ vs !! 5%nat = Some (KMatrix.ppy o').
Proof.
  unfold KMatrix.checkIntrinsicStringValidity.
  destruct (Nat.eqb_spec (length (KMatrix.split (KMatrix.is_any_of ";") K)) 9)
    as [H9|H9]; unfold negb; cbv iota; [|done].
  intros H.
  destruct (Forall_readable_values _ (readFields_true_inv _ _ _ _ H)) as [vs Hvs].
  exists vs. split; [done|].
  pose proof (Forall2_length _ _ _ Hvs) as Hlen. rewrite H9 in Hlen.
  split; [done|].
  rewrite (readFields_all _ _ _ _ Hvs) in H. injection H as <-.
  do 10 (destruct vs as [|? vs]; [done|]). done.
Qed.

(** The parameters that do not come from the K matrix. *)
Lemma configure_inr o cfg :
  conf o = inr cfg →
  defaultFieldOfView cfg = CommandLine.defaultFieldOfView o
  ∧ (nonempty (CommandLine.defaultIntrinsicKMatrix o) = true →
     ∃ o', KMatrix.checkIntrinsicStringValidity
             (CommandLine.defaultIntrinsicKMatrix o)
             {| KMatrix.focal := CommandLine.defaultFocalLengthPixel o;
                KMatrix.ppx := -1; KMatrix.ppy := -1 |} = (true, o')
           ∧ defaultFocalLengthPixel cfg = KMatrix.focal o'
           ∧ defaultPPx cfg = KMatrix.ppx o'
           ∧ defaultPPy cfg = KMatrix.ppy o')
  ∧ (nonempty (CommandLine.defaultIntrinsicKMatrix o) = false →
     defaultFocalLengthPixel cfg = CommandLine.defaultFocalLengthPixel o
     ∧ defaultPPx cfg = (-1)%Q ∧ defaultPPy cfg = (-1)%Q).
Proof.
  unfold configure. intros H.
  repeat match type of H with
         | (if ?b then inl _ else _) = inr _ =>
             destruct b; [discriminate H|]
         end.
  destruct (nonempty (CommandLine.defaultIntrinsicKMatrix o)) eqn:HK.
  - destruct (KMatrix.checkIntrinsicStringValidity _ _) as [valid o'] eqn:E.
    destruct valid; [|done]. simpl in H.
    destruct (if nonempty _ then _ else _); [|done].
    injection H as <-. simpl. split; [done|]. split; [|done].
    intros _. by exists o'.
  - simpl in H. destruct (if nonempty _ then _ else _); [|done].
    injection H as <-. simpl. done.
Qed.

(** X16. When the checks let a command line with a K matrix through, the
    K matrix has nine fields that start with a number, and the pass gets
    the value of field 0 as default focal length and the values of fields
    2 and 5 as default principal point; without a K matrix it gets the
    focal length of the command line and no principal point. *)
Theorem configure_K_matrix o cfg :
  conf o = inr cfg →
  (CommandLine.defaultIntrinsicKMatrix o ≠ "" →
   ∃ vs, Forall2 (λ f v, KMatrix.read_double f = Some v)
           (KMatrix.split (KMatrix.is_any_of ";")
              (CommandLine.defaultIntrinsicKMatrix o)) vs
         ∧ length vs = 9%nat
         ∧ vs !! 0%nat = Some (defaultFocalLengthPixel cfg)
         ∧ vs !! 2%nat = Some (defaultPPx cfg)
         ∧ vs !! 5%nat = Some (defaultPPy cfg))
  ∧ (CommandLine.defaultIntrinsicKMatrix o = "" →
     defaultFocalLengthPixel cfg = CommandLine.defaultFocalLengthPixel o
     ∧ defaultPPx cfg = (-1)%Q ∧ defaultPPy cfg = (-1)%Q).
Proof.
  intros H. destruct (configure_inr _ _ H) as (_ & HK & HnoK). split.
  - intros Hne. apply nonempty_true in Hne.
    destruct (HK Hne) as (o' & Hcheck & -> & -> & ->).
    by apply checkIntrinsicStringValidity_true_inv in Hcheck.
  - intros He. apply nonempty_false in He. by apply HnoK.
Qed.

(** X17. The pass never gets both a positive default focal length and a
    positive default field of view, also when the focal length comes from
    the K matrix. *)
Theorem configure_focal_or_field_of_view o cfg :
  conf o = inr cfg →
  ¬ (dpos (defaultFocalLengthPixel cfg) = true
     ∧ dpos (defaultFieldOfView cfg) = true).
Proof.
  intros H. destruct (configure_inr _ _ H) as (Hfov & _ & HnoK).
  rewrite Hfov. intros [Hf Hv].
  revert H. unfold configure.
  destruct (nonempty (CommandLine.defaultIntrinsicKMatrix o)) eqn:HK.
  - rewrite Hv. simpl. intros H.
    repeat match type of H with
           | (if ?b then inl _ else _) = inr _ =>
               destruct b; [discriminate H|]
           | inl _ = inr _ => discriminate H
           end.
  - destruct (HnoK eq_refl) as (Hfocal & _). rewrite Hfocal in Hf.
    rewrite Hf, Hv. simpl. intros H.
    repeat match type of H with
           | (if ?b then inl _ else _) = inr _ =>
               destruct b; [discriminate H|]
           | inl _ = inr _ => discriminate H
           end.
Qed.

(** ** The views of an image folder *)

Lemma foldl_emplace_lookup (views : gmap Z View) imagePaths id :
  foldl (λ views p, emplace (viewId (viewOf p)) (viewOf p) views) views imagePaths
    !! id
  = match views !! id with
    | Some v => Some v
    | None => head (filter (λ v, viewId v = id) (viewOf <$> imagePaths))
    end.
Proof.
  revert views. induction imagePaths as [|p imagePaths IH]; intros views; simpl.
  - by destruct (views !! id).
  - rewrite IH, filter_cons. case_decide as Hid.
    + rewrite <- Hid, emplace_lookup. simpl.
      by destruct (views !! viewId (viewOf p)).
    + by rewrite emplace_lookup_ne.
Qed.

(** X18. The views made from a list of images are kept by view id: the
    view found under an id is the one of the first image of the list
    whose view has that id, and the views of later images with the same
    id are dropped. *)
Theorem viewsOfImages_first_wins imagePaths id :
  viewsOfImages updateIncompleteView imagePaths !! id
  = head (filter (λ v, viewId v = id)
                 (viewOfImage updateIncompleteView <$> imagePaths)).
Proof. unfold viewsOfImages. by rewrite foldl_emplace_lookup, lookup_empty. Qed.

Lemma elem_of_getViews (views : gmap Z View) v :
  v ∈ getViews views ↔ ∃ id, views !! id = Some v.
Proof.
  unfold getViews. rewrite list_elem_of_fmap. split.
  - intros ([id w] & -> & Hin). rewrite merge_sort_Permutation in Hin.
    apply elem_of_map_to_list in Hin. by exists id.
  - intros [id Hid]. exists (id, v). split; [done|].
    rewrite merge_sort_Permutation. by apply elem_of_map_to_list.
Qed.

Lemma viewsOfImages_elem_of imagePaths id v :
  viewsOf imagePaths !! id = Some v → ∃ p, p ∈ imagePaths ∧ v = viewOf p.
Proof.
  unfold viewsOfImages. rewrite foldl_emplace_lookup, lookup_empty.
  intros [l Hl]%head_Some.
  assert (v ∈ filter (λ v, viewId v = id) (viewOf <$> imagePaths)) as Hin
    by (rewrite Hl; apply list_elem_of_here).
  apply list_elem_of_filter in Hin as [_ Hin].
  apply list_elem_of_fmap in Hin as (p & -> & Hp). by exists p.
Qed.

Lemma getViews_viewsOfImages_nonempty imagePaths :
  imagePaths ≠ [] → getViews (viewsOf imagePaths) ≠ [].
Proof.
  destruct imagePaths as [|p imagePaths]; [done|]. intros _ Hnil.
  assert (viewOf p ∈ getViews (viewsOf (p :: imagePaths))) as Hin.
  { apply elem_of_getViews. exists (viewId (viewOf p)).
    unfold viewsOfImages. rewrite foldl_emplace_lookup, lookup_empty. simpl.
    rewrite filter_cons, decide_True by done. done. }
  rewrite Hnil in Hin. by apply elem_of_nil in Hin.
Qed.

(** X19. When [main] is given an image folder and reaches the pass, the
    folder holds at least one regular file with one of the five image
    extensions, the pass runs without previous intrinsics on a non-empty
    list of views, and each of these views is the view of a listed
    image; so the error "Can't find views in input" cannot come from an
    image folder. *)
Theorem main_image_folder o out :
  program o = inr out → CommandLine.imageFolder o ≠ "" →
  let images :=
    ListFiles.regularFiles (ListFiles.selected ListFiles.imageExtensions)
      (fs_entry (CommandLine.imageFolder o)) in
  ∃ cfg, conf o = inr cfg
    ∧ images ≠ []
    ∧ out = cameraInit getInfo getViewIntrinsic hashValue rand Save cfg
              (getViews (viewsOf images)) ∅
    ∧ getViews (viewsOf images) ≠ []
    ∧ (∀ v, v ∈ getViews (viewsOf images) → ∃ p, p ∈ images ∧ v = viewOf p).
Proof.
  intros H Hfolder images. unfold main in H.
  destruct (conf o) as [a|cfg] eqn:Hconf; [done|].
  apply nonempty_true in Hfolder. rewrite Hfolder in H. simpl in H.
  rewrite listFiles_listed in H. simpl in H. fold images in H.
  destruct (bool_decide_reflect (images ≠ [])) as [Hne|Hnil]; [|done].
  injection H as <-. exists cfg. repeat split; try done.
  - by apply getViews_viewsOfImages_nonempty.
  - intros v [id Hid]%elem_of_getViews. by eapply viewsOfImages_elem_of.
Qed.

End MainFacts.

(** * More runs on the reference instance *)

Section MoreScenarios.

Import Reference.

Local Abbreviation builder := (getViewIntrinsic tanHalfFov).

Local Ltac all_fresh :=
  repeat (apply Forall_cons_2; [vm_compute; reflexivity|]); apply Forall_nil_2.

Lemma run_view_status_witness :
  let out := run (config 2 true false) (canonA :: acmeX :: frames) ∅ in
  exitCode out = EXIT_SUCCESS
  ∧ Forall (λ v', is_Some (intrinsics (outState out) !! intrinsicId v')
                  ∨ (true = true ∧ intrinsicId v' = UndefinedIndexT))
           (outViews out).
Proof.
  intros out.
  destruct (run_view_status getInfo builder hashValue rand Save
              (config 2 true false) (canonA :: acmeX :: frames) ∅) as [_ Hok];
    [discriminate|].
  split; [vm_compute; reflexivity|]. apply Hok. vm_compute; reflexivity.
Defined.

Lemma fresh_pass_is_order_independent_witness :
  let cfg := config 2 false false in
  (pass cfg (initialState ∅) [canonA; nikonC; acmeX]).2
  ≡ₚ (pass cfg (initialState {[ 7 := pinhole 1000 ]}) [acmeX; canonA; nikonC]).2.
Proof.
  intros cfg.
  apply (fresh_pass_is_order_independent getInfo builder hashValue rand cfg
           (initialState ∅) (initialState {[ 7 := pinhole 1000 ]})
           [canonA; nikonC; acmeX] [acmeX; canonA; nikonC]).
  - vm_compute. discriminate.
  - all_fresh.
  - symmetry. apply (Permutation_cons_append [canonA; nikonC] acmeX).
Defined.

Lemma fresh_pass_noMetadataImagePaths_witness :
  ∃ added,
    noMetadataImagePaths
      (pass (configFocal 1000 2 false false) (initialState ∅) (frames ++ [canonA])).1
    = [] ++ added
    ∧ added ≡ₚ ["/video/0001.jpg"; "/video/0002.jpg"; "/video/0003.jpg"].
Proof.
  destruct (fresh_pass_noMetadataImagePaths getInfo builder hashValue rand
              (configFocal 1000 2 false false) (initialState ∅)
              (canonA :: frames) (frames ++ [canonA]))
    as (added & Hadded & Hperm).
  - all_fresh.
  - symmetry. apply (Permutation_cons_append frames canonA).
  - exists added. split; [exact Hadded|].
    etrans; [exact Hperm|]. vm_compute. reflexivity.
Defined.

Lemma fresh_pass_completeViewCount_witness :
  completeViewCount
    (pass (config 2 true false) (initialState ∅) (canonA :: acmeX :: frames)).1
  = 1%nat.
Proof.
  rewrite (fresh_pass_completeViewCount getInfo builder hashValue rand
             (config 2 true false) (initialState ∅) (canonA :: acmeX :: frames)).
  - vm_compute; reflexivity.
  - all_fresh.
Defined.

Lemma fresh_pass_unknownSensors_witness :
  let acmeY := image 5 "/data/y.jpg" (exif "Acme" "X1" "35") in
  let st := pass (config 2 false false) (initialState ∅) [acmeY; canonA; acmeX] in
  is_Some (unknownSensors st.1 !! ("Acme", "X1"))
  ∧ ¬ is_Some (unknownSensors st.1 !! ("Canon", "Canon EOS 5D")).
Proof.
  intros acmeY st.
  destruct (fresh_pass_unknownSensors getInfo builder hashValue rand
              (config 2 false false) (initialState ∅) [canonA; acmeX; acmeY]
              [acmeY; canonA; acmeX] ("Acme", "X1")) as (_ & Hacme & _).
  { all_fresh. }
  { apply (Permutation_cons_append [canonA; acmeX] acmeY). }
  destruct (fresh_pass_unknownSensors getInfo builder hashValue rand
              (config 2 false false) (initialState ∅) [canonA; acmeX; acmeY]
              [acmeY; canonA; acmeX] ("Canon", "Canon EOS 5D")) as (_ & Hcanon & _).
  { all_fresh. }
  { apply (Permutation_cons_append [canonA; acmeX] acmeY). }
  split.
  - apply Hacme. right. exists acmeX. split; [|split; vm_compute; reflexivity].
    right; left.
  - intros Hin. apply Hcanon in Hin as [[p Hp]|(v & Hv & Hu & Hk)].
    + vm_compute in Hp. discriminate Hp.
    + repeat (apply elem_of_cons in Hv as [->|Hv];
                [first [vm_compute in Hu; discriminate Hu
                       |vm_compute in Hk; discriminate Hk]|]).
      by apply elem_of_nil in Hv.
Defined.

Lemma per_view_mode_ids_witness :
  intrinsicId
    <$> (pass (configFocal 1000 0 false false) (initialState ∅) (frames ++ [canonA])).2
  ≡ₚ [toIndexT (rand 0); toIndexT (rand 1); toIndexT (rand 2); toIndexT (rand 3)].
Proof.
  apply (per_view_mode_ids getInfo builder hashValue rand
           (configFocal 1000 0 false false) (initialState ∅)
           (canonA :: frames) (frames ++ [canonA])).
  - reflexivity.
  - repeat (apply Forall_cons_2; [split; vm_compute; reflexivity|]).
    apply Forall_nil_2.
  - symmetry. apply (Permutation_cons_append frames canonA).
Defined.

Lemma default_mode_groups_by_folder_witness :
  let cfg := configFocal 1000 2 false false in
  let a := image 1 "/video/0001.jpg" ∅ in
  let b := image 2 "/video/0002.jpg" ∅ in
  serialNumber (built cfg a) = "/video"
  ∧ intrinsicId (withIntrinsicId 2068616701 a)
    = intrinsicId (withIntrinsicId 2068616701 b).
Proof.
  intros cfg a b.
  destruct (default_mode_groups_by_folder getInfo builder hashValue rand cfg
              (initialState ∅) [a; b] 0 1 a b
              (withIntrinsicId 2068616701 a) (withIntrinsicId 2068616701 b))
    as [Hsn Hid]; try (vm_compute; reflexivity).
  split; [exact Hsn|]. apply Hid; vm_compute; reflexivity.
Defined.

Lemma fresh_pass_intrinsics_witness :
  let cfg := config 2 false false in
  ∃ v, v ∈ [canonA; canonB; nikonC]
       ∧ intrinsics (pass cfg (initialState ∅) [nikonC; canonB; canonA]).1
           !! toIndexT (hashValue (built cfg canonA))
         = Some (built cfg v).
Proof.
  intros cfg.
  destruct (fresh_pass_intrinsics getInfo builder hashValue rand cfg
              (initialState ∅) [canonA; canonB; nikonC] [nikonC; canonB; canonA]
              (toIndexT (hashValue (built cfg canonA)))) as [Hbound Hfrom].
  - vm_compute. discriminate.
  - all_fresh.
  - etrans; [apply (Permutation_cons_append [canonB; canonA] nikonC)|].
    apply Permutation_swap.
  - destruct (proj2 Hbound) as [i Hi].
    { right. exists canonA. split; [left|]. split; [vm_compute|]; reflexivity. }
    destruct (Hfrom i Hi) as [Hold|(v & Hin & _ & _ & Hcand)].
    + vm_compute in Hold. discriminate Hold.
    + exists v. split; [exact Hin|]. subst i. exact Hi.
Defined.

Lemma assigned_pass_is_identity_witness :
  let st := initialState {[ 7 := pinhole 1000; 8 := pinhole (-1) ]} in
  let views := [withIntrinsicId 7 acmeX; withIntrinsicId 8 canonA] in
  (pass (config 2 false false) st views).2 = views
  ∧ completeViewCount (pass (config 2 false false) st views).1 = 1%nat.
Proof.
  intros st views.
  destruct (assigned_pass_is_identity getInfo builder hashValue rand
              (config 2 false false) st views) as (Hv & _ & _ & Hc).
  - repeat (apply Forall_cons_2; [vm_compute; eauto|]). apply Forall_nil_2.
  - split; [exact Hv|]. etrans; [exact Hc|]. vm_compute; reflexivity.
Defined.

Lemma second_pass_is_identity_witness :
  let cfg := config 2 true false in
  let first := pass cfg (initialState ∅) (canonA :: acmeX :: frames) in
  (pass cfg (initialState (intrinsics first.1)) first.2).2 = first.2
  ∧ intrinsics (pass cfg (initialState (intrinsics first.1)) first.2).1
    = intrinsics first.1.
Proof.
  intros cfg first.
  apply (second_pass_is_identity getInfo builder hashValue rand cfg
           (initialState ∅) (canonA :: acmeX :: frames)
           (initialState (intrinsics first.1))).
  - intros Hmode. vm_compute in Hmode. discriminate Hmode.
  - reflexivity.
Defined.

(** ** The command line *)

Lemma configure_exclusive_options_witness :
  CommandLine.imageFolder (ReferenceMain.options "1200;0;960;0;1200;540;0;0;1") ≠ ""
  ∧ CommandLine.sfmFilePath (ReferenceMain.options "1200;0;960;0;1200;540;0;0;1") = "".
Proof.
  destruct (configure_exclusive_options
              ReferenceMain.fs_exists ReferenceMain.fs_is_directory
              ReferenceMain.fs_is_regular_file ReferenceMain.fs_create_directory
              ReferenceMain.parseDatabase ReferenceMain.EINTRINSIC_stringToEnum
              (ReferenceMain.options "1200;0;960;0;1200;540;0;0;1")
              (configKMatrix 1200 960 540))
    as (Hinput & _); [vm_compute; reflexivity|].
  split; [|reflexivity]. intros Hempty. by apply Hinput in Hempty.
Defined.

Lemma configure_K_matrix_witness :
  ∃ vs, length vs = 9%nat ∧ vs !! 0%nat = Some (1200 : double)
        ∧ vs !! 2%nat = Some (960 : double) ∧ vs !! 5%nat = Some (540 : double).
Proof.
  destruct (configure_K_matrix
              ReferenceMain.fs_exists ReferenceMain.fs_is_directory
              ReferenceMain.fs_is_regular_file ReferenceMain.fs_create_directory
              ReferenceMain.parseDatabase ReferenceMain.EINTRINSIC_stringToEnum
              (ReferenceMain.options "1200;0;960;0;1200;540;0;0;1")
              (configKMatrix 1200 960 540))
    as (HK & _); [vm_compute; reflexivity|].
  destruct HK as (vs & _ & Hlen & H0 & H2 & H5); [discriminate|].
  exists vs. repeat split; assumption.
Defined.

Lemma configure_focal_or_field_of_view_witness :
  ¬ (dpos (defaultFocalLengthPixel (configKMatrix 1200 960 540)) = true
     ∧ dpos (defaultFieldOfView (configKMatrix 1200 960 540)) = true).
Proof.
  apply (configure_focal_or_field_of_view
           ReferenceMain.fs_exists ReferenceMain.fs_is_directory
           ReferenceMain.fs_is_regular_file ReferenceMain.fs_create_directory
           ReferenceMain.parseDatabase ReferenceMain.EINTRINSIC_stringToEnum
           (ReferenceMain.options "1200;0;960;0;1200;540;0;0;1")).
  vm_compute; reflexivity.
Defined.

Lemma main_image_folder_witness :
  ListFiles.regularFiles (ListFiles.selected ListFiles.imageExtensions)
    (ReferenceMain.fs_entry "/data")
  = ["/data/a.JPG"; "/data/sub/b.tiff"; "/data/c.jpeg"]
  ∧ ∃ cfg, ReferenceMain.configure (ReferenceMain.options "") = inr cfg.
Proof.
  split; [vm_compute; reflexivity|].
  destruct (main_image_folder
              ReferenceMain.fs_exists ReferenceMain.fs_is_directory
              ReferenceMain.fs_is_regular_file ReferenceMain.fs_create_directory
              ReferenceMain.fs_entry
              ReferenceMain.parseDatabase ReferenceMain.EINTRINSIC_stringToEnum
              ReferenceMain.loadJSON ReferenceMain.updateIncompleteView
              getInfo builder hashValue rand Save
              (ReferenceMain.options "")
              (run (config 2 false false)
                 (getViews (ReferenceMain.viewsOfImages
                    ["/data/a.JPG"; "/data/sub/b.tiff"; "/data/c.jpeg"])) ∅))
    as (cfg & Hcfg & _).
  - vm_compute; reflexivity.
  - discriminate.
  - by exists cfg.
Defined.

End MoreScenarios.
